(** * instawow: the package engine, the batch orchestrator and the
      protocol queue of [instawow/manager.py], embedded in Rocq.

    The embedding follows the Python source function by function.
    Coroutines of the package engine are computations in a state-and-
    exception monad over a [World] made of the add-on directory on disk,
    the operating environment's trash, the SQLAlchemy session and the
    log.  A raised exception keeps whatever the computation had already
    done to the world, as in Python. *)

From Stdlib Require Import Ascii String List Bool Arith Lia Permutation.
From stdpp Require Import base option list gmap strings sorting.

Local Open Scope string_scope.
Local Open Scope list_scope.

(** ** Entity model ([instawow/models.py], as used by the manager) *)

(** [pathlib.Path], kept as its [parts]. *)
Definition Path := list string.

(** [parent / name] *)
Definition joinpath (parent : Path) (name : string) : Path := parent ++ [name].

Record PkgOptions := { strategy : string }.

Record PkgFolder := { path : Path }.

(** Modelled from the spec: the table declarations of [Pkg] and
    [PkgFolder] live in [models.py]; the columns below are the ones the
    manager reads and the ones section 3 of the specification lists.  A
    folder row belongs to the package that lists it in [folders], so the
    foreign key [(pkg_origin, pkg_id)] of a folder row is the key of the
    package it is nested in. *)
Record Pkg := {
  origin : string;
  id : string;
  slug : string;
  name : string;
  description : string;
  url : string;
  file_id : string;
  download_url : string;
  date_published : string;
  version : string;
  options : PkgOptions;
  folders : list PkgFolder
}.

Definition set_folders (p : Pkg) (fs : list PkgFolder) : Pkg :=
  {| origin := origin p; id := id p; slug := slug p; name := name p;
     description := description p; url := url p; file_id := file_id p;
     download_url := download_url p; date_published := date_published p;
     version := version p; options := options p; folders := fs |}.

#[global] Instance PkgOptions_eq_dec : EqDecision PkgOptions.
Proof. solve_decision. Defined.
#[global] Instance PkgFolder_eq_dec : EqDecision PkgFolder.
Proof. solve_decision. Defined.
#[global] Instance Pkg_eq_dec : EqDecision Pkg.
Proof. solve_decision. Defined.

(** ** Results and exceptions ([instawow/exceptions.py]) *)

Inductive ManagerError :=
| PkgAlreadyInstalled
| PkgConflictsWithInstalled (conflicting_pkg : Pkg)
| PkgConflictsWithPreexisting (conflict_folders : list string)
| PkgNonexistent
| PkgTemporarilyUnavailable
| PkgNotInstalled
| PkgOriginInvalid
| PkgUpToDate.

(** The successful [ManagerResult]s. *)
Inductive ManagerSuccess :=
| PkgInstalled (new_pkg : Pkg)
| PkgUpdated (old_pkg new_pkg : Pkg)
| PkgRemoved (old_pkg : Pkg).

(** Everything below [Exception] that an operation can raise:
    [ManagerError] and its subclasses, [InternalError] (a sibling of
    [ManagerError], not a subclass), and every other exception class,
    kept by its class name ([OSError], [BadZipFile], [ClientError] ...).
    Interpreter signals that are not [Exception]s ([KeyboardInterrupt],
    [SystemExit]) end the process and are not failures of an
    operation. *)
Inductive Exception :=
| EManagerError (e : ManagerError)
| EInternalError (error : Exception)
| EOther (cls : string).

#[global] Instance ManagerError_eq_dec : EqDecision ManagerError.
Proof. solve_decision. Defined.
#[global] Instance Exception_eq_dec : EqDecision Exception.
Proof. solve_decision. Defined.

(** [isinstance(error, E.ManagerError)] *)
Definition is_ManagerError (e : Exception) : bool :=
  match e with EManagerError _ => true | _ => false end.

(** What awaiting a coroutine gives: a value or a raised exception. *)
Inductive outcome (A : Type) :=
| Returned (a : A)
| Raised (e : Exception).
Arguments Returned {A} a.
Arguments Raised {A} e.

(** ** The world the engine acts on *)

(** A top-level entry of the add-on directory with what is below it:
    relative member paths and their data. *)
Definition Tree := list (list string * string).

(** The session's unit of work. *)
Inductive DbOp :=
| DbAdd (p : Pkg)
| DbDelete (p : Pkg).

(** [self.db]: committed [rows], in insertion order, the operations
    issued since the last commit, and how many times [commit] ran. *)
Record Session := {
  rows : list Pkg;
  pending : list DbOp;
  commits : nat
}.

Record World := {
  disk : gmap Path Tree;
  trashed : list (Path * Tree);
  db : Session;
  log : list (string * Exception)
}.

Definition with_disk (w : World) (d : gmap Path Tree) : World :=
  {| disk := d; trashed := trashed w; db := db w; log := log w |}.
Definition with_db (w : World) (s : Session) : World :=
  {| disk := disk w; trashed := trashed w; db := s; log := log w |}.

(** The monad of the engine's coroutines. *)
Definition M (A : Type) : Type := World -> outcome A * World.

Definition ret {A} (a : A) : M A := fun w => (Returned a, w).
Definition raise {A} (e : Exception) : M A := fun w => (Raised e, w).
Definition bind {A B} (m : M A) (k : A -> M B) : M B :=
  fun w => match m w with
           | (Returned a, w') => k a w'
           | (Raised e, w') => (Raised e, w')
           end.
(** [try: body finally: fin], for a [fin] that does not raise. *)
Definition try_finally {A} (body : M A) (fin : M unit) : M A :=
  fun w => match body w with
           | (r, w') => (r, snd (fin w'))
           end.
(** Lift what an external collaborator answered. *)
Definition lift {A} (o : outcome A) : M A := fun w => (o, w).

Declare Scope engine_scope.
Delimit Scope engine_scope with engine.
Notation "x <- m ;; k" := (bind m (fun x => k))
  (at level 100, m at next level, right associativity) : engine_scope.
Notation "m ;;; k" := (bind m (fun _ => k))
  (at level 100, right associativity) : engine_scope.
Local Open Scope engine_scope.

(** ** The persistence layer *)

(** Primary key of the package table. *)
Definition same_key (p q : Pkg) : bool :=
  bool_decide (origin p = origin q) && bool_decide (id p = id q).

Definition apply_op (rs : list Pkg) (op : DbOp) : list Pkg :=
  match op with
  | DbAdd p => rs ++ [p]
  | DbDelete p => List.filter (fun q => negb (same_key q p)) rs
  end.

(** The rows a query sees: the session flushes its pending operations
    before it queries. *)
Definition flushed (s : Session) : list Pkg :=
  fold_left apply_op (pending s) (rows s).

Definition db_add (p : Pkg) : M unit := fun w =>
  (Returned tt,
   with_db w {| rows := rows (db w); pending := pending (db w) ++ [DbAdd p];
                commits := commits (db w) |}).

Definition db_delete (p : Pkg) : M unit := fun w =>
  (Returned tt,
   with_db w {| rows := rows (db w); pending := pending (db w) ++ [DbDelete p];
                commits := commits (db w) |}).

(** [self.db.commit()]: the pending operations reach the committed rows
    in one transaction.  The keys of the tables are declared in
    [models.py]; the commit is modelled for operations that respect
    them. *)
Definition db_commit : M unit := fun w =>
  (Returned tt, with_db w {| rows := flushed (db w); pending := [];
                             commits := S (commits (db w)) |}).

(** A row of the folder table with its owner ([PkgFolder.pkg]). *)
Record FolderRow := {
  row_folder : PkgFolder;
  pkg : Pkg
}.
Definition pkg_origin (r : FolderRow) : string := origin (pkg r).
Definition pkg_id (r : FolderRow) : string := id (pkg r).

Definition folder_rows (rs : list Pkg) : list FolderRow :=
  flat_map (fun p => map (fun f => {| row_folder := f; pkg := p |}) (folders p)) rs.

(** [self.db.query(T).filter(c).first()] *)
Definition query_first {T} (table : list T) (criterion : T -> bool) : option T :=
  List.find criterion table.

(** ** The filesystem and the trash *)

(** [path.exists()] *)
Definition exists_ (p : Path) : M bool := fun w =>
  (Returned (bool_decide (is_Some (disk w !! p))), w).

(** [send2trash(str(path))]: the entry leaves the disk for the operating
    environment's trash, with everything below it; a path that is not on
    disk raises [OSError]. *)
Definition send2trash (p : Path) : M unit := fun w =>
  match disk w !! p with
  | Some t =>
      (Returned tt,
       {| disk := delete p (disk w); trashed := trashed w ++ [(p, t)];
          db := db w; log := log w |})
  | None => (Raised (EOther "OSError"), w)
  end.

(** [trash(paths)]: [for path in paths: send2trash(str(path))] *)
Fixpoint trash (paths : list Path) : M unit :=
  match paths with
  | [] => ret tt
  | p :: rest => send2trash p ;;; trash rest
  end.

(** [trash(f.path for f in folders if f.path.exists())]: the generator
    tests each path when the loop reaches it. *)
Fixpoint trash_existing (paths : list Path) : M unit :=
  match paths with
  | [] => ret tt
  | p :: rest =>
      e <- exists_ p ;;
      (if e : bool then send2trash p else ret tt) ;;;
      trash_existing rest
  end.

(** [parent_folder.iterdir()]: the entries on disk right below [parent]. *)
Definition is_child (parent k : Path) : bool :=
  match last k with
  | Some n => bool_decide (k = joinpath parent n)
  | None => false
  end.

Definition iterdir (parent : Path) (d : gmap Path Tree) : list Path :=
  List.filter (is_child parent) (map fst (map_to_list d)).

(** [f.name] *)
Definition path_name (p : Path) : string := default "" (last p).

(** ** The archive handler ([PkgArchive]) *)

(** A member of a zip file: the first part of its name, the rest of the
    name, its data. *)
Record ZipMember := {
  root : string;
  rest : list string;
  data : string
}.

(** The downloaded bytes, by what [ZipFile] makes of them. *)
Inductive Payload :=
| NotAZip
| ZipBytes (members : list ZipMember).

(** A part of a name that [pathlib], which [PkgArchive] splits member
    names with, and [zipfile], which writes the members, read alike: it
    is not empty, it is neither [.] nor [..], and it holds no
    separator. *)
Fixpoint has_slash (s : string) : bool :=
  match s with
  | EmptyString => false
  | String c s' => bool_decide (c = "/"%char) || has_slash s'
  end.
Definition plain_name (s : string) : bool :=
  negb (bool_decide (s = "")) && negb (bool_decide (s = "."))
  && negb (bool_decide (s = "..")) && negb (has_slash s).
Definition plain_member (m : ZipMember) : bool :=
  plain_name (root m) && forallb plain_name (rest m).

Record PkgArchive := {
  archive : list ZipMember;
  root_folders : list string
}.

(** [PkgArchive.__init__]; [root_folders] is a set, kept as a list
    without duplicates. *)
Definition PkgArchive_init (payload : Payload) : M PkgArchive :=
  match payload with
  | NotAZip => raise (EOther "BadZipFile")
  | ZipBytes ms =>
      ret {| archive := ms; root_folders := remove_dups (map root ms) |}
  end.

Definition write_member (parent : Path) (d : gmap Path Tree) (m : ZipMember)
  : gmap Path Tree :=
  let p := joinpath parent (root m) in
  let old := default [] (d !! p) in
  <[p := (rest m, data m)
         :: List.filter (fun e => negb (bool_decide (fst e = rest m))) old]> d.

(** [self.archive.extractall(parent_folder)], for members whose names
    are made of plain parts ([plain_member]): each is written below the
    parent folder under its name.  From other names [zipfile] drops the
    [..] parts and a leading separator before it writes, while
    [root_folders] keeps them. *)
Definition extractall (a : PkgArchive) (parent : Path) : M unit := fun w =>
  (Returned tt, with_disk w (fold_left (write_member parent) (archive a) (disk w))).

(** [PkgArchive.extract] *)
Definition extract (a : PkgArchive) (parent_folder : Path) (overwrite : bool)
  : M unit :=
  (if overwrite then ret tt
   else fun w =>
     let names := map path_name (iterdir parent_folder (disk w)) in
     let conflicts :=
       List.filter (fun f => bool_decide (f ∈ names)) (root_folders a) in
     match conflicts with
     | [] => (Returned tt, w)
     | _ => (Raised (EManagerError (PkgConflictsWithPreexisting conflicts)), w)
     end) ;;;
  extractall a parent_folder.

(** ** External collaborators of a manager *)

(** A resolver: [resolve(id_or_slug, strategy=strategy)]. *)
Definition Resolver := string -> string -> outcome Pkg.

Record Env := {
  (** [config.addon_dir] *)
  addon_dir : Path;
  (** [self.resolvers], a [MemberDict] keyed by origin *)
  resolvers : list (string * Resolver);
  (** [self.client.get().get(url)] followed by [response.read()]: the
      bytes, or the class of the exception the network stack raised *)
  http_get : string -> string + Payload;
  (** [Path(unquote(path)).read_bytes()]: the bytes, or the class of the
      exception the operating system raised *)
  read_bytes : string -> string + Payload
}.

Definition io_outcome {A} (r : string + A) : outcome A :=
  match r with
  | inl cls => Raised (EOther cls)
  | inr a => Returned a
  end.

(** [MemberDict.__getitem__] with its [__missing__] *)
Definition MemberDict_get (d : list (string * Resolver)) (key : string)
  : M Resolver :=
  match List.find (fun kv => bool_decide (fst kv = key)) d with
  | Some kv => ret (snd kv)
  | None => raise (EManagerError PkgOriginInvalid)
  end.

(** ** The package engine ([Manager]) *)

Section Manager.
Variable env : Env.

(** [Manager._download_file] *)
Definition _download_file (u : string) : M Payload :=
  if String.prefix "file://" u
  then lift (io_outcome
               (read_bytes env (String.substring 7 (String.length u - 7) u)))
  else lift (io_outcome (http_get env u)).

(** [Pkg.origin == origin, (Pkg.id == id_or_slug) | (Pkg.slug == id_or_slug)] *)
Definition get_filter (origin_ id_or_slug : string) (p : Pkg) : bool :=
  bool_decide (origin p = origin_)
  && (bool_decide (id p = id_or_slug) || bool_decide (slug p = id_or_slug)).

(** [Manager.get] *)
Definition get (origin_ id_or_slug : string) : M (option Pkg) := fun w =>
  (Returned (query_first (flushed (db w)) (get_filter origin_ id_or_slug)), w).

(** [Manager.resolve] *)
Definition resolve (origin_ id_or_slug strategy_ : string) : M Pkg :=
  r <- MemberDict_get (resolvers env) origin_ ;;
  lift (r id_or_slug strategy_).

(** The folders a package gets from an archive:
    [[PkgFolder(path=self.config.addon_dir / f) for f in archive.root_folders]] *)
Definition archive_folders (a : PkgArchive) : list PkgFolder :=
  map (fun f => {| path := joinpath (addon_dir env) f |}) (root_folders a).

(** [PkgFolder.path.in_([f.path for f in pkg.folders])] *)
Definition install_conflict_filter (paths : list Path) (r : FolderRow) : bool :=
  bool_decide (path (row_folder r) ∈ paths).

(** [PkgFolder.path.in_([f.path for f in new_pkg.folders]),
     PkgFolder.pkg_origin != new_pkg.origin,
     PkgFolder.pkg_id != new_pkg.id]: the criteria of one [filter]
    call are joined by AND. *)
Definition update_conflict_filter (paths : list Path) (new_pkg : Pkg)
    (r : FolderRow) : bool :=
  bool_decide (path (row_folder r) ∈ paths)
  && negb (bool_decide (pkg_origin r = origin new_pkg))
  && negb (bool_decide (pkg_id r = id new_pkg)).

(** The closure [install] of [Manager.to_install]. *)
Definition install (pkg0 : Pkg) (payload : Payload) (overwrite : bool)
  : M ManagerSuccess :=
  a <- PkgArchive_init payload ;;
  let pkg_ := set_folders pkg0 (archive_folders a) in
  conflicts <- (fun w =>
    (Returned
       (query_first (folder_rows (flushed (db w)))
          (install_conflict_filter (map path (folders pkg_)))),
     w)) ;;
  match conflicts with
  | Some c => raise (EManagerError (PkgConflictsWithInstalled (pkg c)))
  | None =>
      (if overwrite then trash_existing (map path (folders pkg_)) else ret tt) ;;;
      extract a (addon_dir env) overwrite ;;;
      db_add pkg_ ;;;
      db_commit ;;;
      ret (PkgInstalled pkg_)
  end.

(** [Manager.to_install] *)
Definition to_install (origin_ id_or_slug strategy_ : string) (overwrite : bool)
  : M (M ManagerSuccess) :=
  cur <- get origin_ id_or_slug ;;
  match cur with
  | Some _ => raise (EManagerError PkgAlreadyInstalled)
  | None =>
      pkg_ <- resolve origin_ id_or_slug strategy_ ;;
      payload <- _download_file (download_url pkg_) ;;
      ret (install pkg_ payload overwrite)
  end.

(** The closure [update] of [Manager.to_update]. *)
Definition update (cur_pkg new_pkg0 : Pkg) (payload : Payload)
  : M ManagerSuccess :=
  a <- PkgArchive_init payload ;;
  let new_pkg := set_folders new_pkg0 (archive_folders a) in
  conflicts <- (fun w =>
    (Returned
       (query_first (folder_rows (flushed (db w)))
          (update_conflict_filter (map path (folders new_pkg)) new_pkg)),
     w)) ;;
  match conflicts with
  | Some c => raise (EManagerError (PkgConflictsWithInstalled (pkg c)))
  | None =>
      try_finally
        (trash (map path (folders cur_pkg)) ;;;
         db_delete cur_pkg ;;;
         extract a (addon_dir env) false ;;;
         db_add new_pkg)
        db_commit ;;;
      ret (PkgUpdated cur_pkg new_pkg)
  end.

(** [Manager.to_update], from the line after the lookup of [cur_pkg]. *)
Definition to_update_found (origin_ id_or_slug : string) (cur_pkg : Pkg)
  : M (M ManagerSuccess) :=
  new_pkg <- resolve origin_ id_or_slug (strategy (options cur_pkg)) ;;
  if bool_decide (file_id cur_pkg = file_id new_pkg)
  then raise (EManagerError PkgUpToDate)
  else
    payload <- _download_file (download_url new_pkg) ;;
    ret (update cur_pkg new_pkg payload).

(** [Manager.to_update] *)
Definition to_update (origin_ id_or_slug : string) : M (M ManagerSuccess) :=
  cur <- get origin_ id_or_slug ;;
  match cur with
  | None => raise (EManagerError PkgNotInstalled)
  | Some cur_pkg => to_update_found origin_ id_or_slug cur_pkg
  end.

(** [Manager.remove], from the line after the lookup of [pkg]. *)
Definition remove_found (pkg_ : Pkg) : M ManagerSuccess :=
  trash (map path (folders pkg_)) ;;;
  db_delete pkg_ ;;;
  db_commit ;;;
  ret (PkgRemoved pkg_).

(** [Manager.remove] *)
Definition remove (origin_ id_or_slug : string) : M ManagerSuccess :=
  cur <- get origin_ id_or_slug ;;
  match cur with
  | None => raise (EManagerError PkgNotInstalled)
  | Some pkg_ => remove_found pkg_
  end.

(** An install or an update from start to end: the deferred action is
    run when the first phase returned one. *)
Definition run_deferred (first : M (M ManagerSuccess)) : M ManagerSuccess :=
  second <- first ;; second.

Definition Install (origin_ id_or_slug strategy_ : string) (overwrite : bool)
  : M ManagerSuccess :=
  run_deferred (to_install origin_ id_or_slug strategy_ overwrite).

Definition Update (origin_ id_or_slug : string) : M ManagerSuccess :=
  run_deferred (to_update origin_ id_or_slug).

End Manager.

(** ** The batch orchestrator ([SafeFuture], [CliManager]) *)

(** A [SafeFuture] that is done: it holds a result or an exception. *)
Inductive SafeFuture (A : Type) :=
| FutResult (v : A)
| FutException (e : Exception).
Arguments FutResult {A} v.
Arguments FutException {A} e.

(** [Future.exception()] *)
Definition exception {A} (f : SafeFuture A) : option Exception :=
  match f with FutException e => Some e | FutResult _ => None end.

(** [SafeFuture.result]: [self.exception() or super().result()]; the
    exception comes back as a value. *)
Definition result {A} (f : SafeFuture A) : Exception + A :=
  match exception f with
  | Some e => inl e
  | None => match f with FutResult v => inr v | FutException e => inl e end
  end.

Definition log_exception (msg : string) (e : Exception) (w : World) : World :=
  {| disk := disk w; trashed := trashed w; db := db w;
     log := log w ++ [(msg, e)] |}.

(** [SafeFuture.intercept] *)
Definition intercept {A} (awaitable : M A) : M (SafeFuture A) := fun w =>
  match awaitable w with
  | (Returned v, w') => (Returned (FutResult v), w')
  | (Raised error, w') =>
      if is_ManagerError error
      then (Returned (FutException error), w')
      else (Returned (FutException (EInternalError error)),
            log_exception "internal error" error w')
  end.

(** The future an awaited outcome ends in. *)
Definition future_of {A} (o : outcome A) : SafeFuture A :=
  match o with
  | Returned v => FutResult v
  | Raised error =>
      if is_ManagerError error then FutException error
      else FutException (EInternalError error)
  end.

(** [sorted] on [(index, future)] tuples.  Tuples compare by their first
    components; when these are equal the comparison goes on to the
    futures, which have no order, and raises [TypeError].  Any
    comparison sort returns the same list; insertion stands for
    Timsort. *)
Fixpoint insert_tuple {F} (x : nat * F) (l : list (nat * F))
  : outcome (list (nat * F)) :=
  match l with
  | [] => Returned [x]
  | y :: l' =>
      if (fst x <? fst y)%nat then Returned (x :: l)
      else if (fst y <? fst x)%nat then
        match insert_tuple x l' with
        | Returned r => Returned (y :: r)
        | Raised e => Raised e
        end
      else Raised (EOther "TypeError")
  end.

Fixpoint sorted {F} (l : list (nat * F)) : outcome (list (nat * F)) :=
  match l with
  | [] => Returned []
  | x :: l' =>
      match sorted l' with
      | Returned r => insert_tuple x r
      | Raised e => Raised e
      end
  end.

(** The order [sorted] puts the tuples in. *)
Definition key_lt {F} (a b : nat * F) : Prop := fst a < fst b.

(** [[await r for r in asyncio.as_completed(futures)]]: the wrapped
    coroutines in the order they complete.  [schedule] is that order, as
    indices into the submitted list; a coroutine runs to its end in one
    piece at its turn.  The progress bar is a display sink and is not
    part of the world. *)
Fixpoint as_completed {A} (coros : list (M A)) (schedule : list nat)
  : M (list (nat * SafeFuture A)) :=
  match schedule with
  | [] => ret []
  | index :: later =>
      match coros !! index with
      | Some coro =>
          future <- intercept coro ;;
          others <- as_completed coros later ;;
          ret ((index, future) :: others)
      | None => as_completed coros later
      end
  end.

(** [CliManager.gather].  The closing loop that waits for the download
    bars to wipe themselves changes nothing in the result. *)
Definition gather {A} (coros : list (M A)) (schedule : list nat)
  : M (list (SafeFuture A)) :=
  done <- as_completed coros schedule ;;
  ordered <- lift (sorted done) ;;
  ret (map snd ordered).






(** ** The protocol layer ([WsManager.poll]) *)

Inductive RequestClass :=
| InstallRequest
| UpdateRequest
| RemoveRequest
| ResolveRequest.

#[global] Instance RequestClass_eq_dec : EqDecision RequestClass.
Proof. solve_decision. Defined.

Record Request := {
  request_id : nat;
  request_class : RequestClass;
  uri_origin : string;
  uri_id_or_slug : string;
  resolution_strategy : string;
  request_overwrite : bool
}.

(** [request.__class__ in {InstallRequest, UpdateRequest, RemoveRequest}] *)
Definition is_mutating (r : Request) : bool :=
  match request_class r with
  | InstallRequest | UpdateRequest | RemoveRequest => true
  | ResolveRequest => false
  end.

(** [request.__class__ in {InstallRequest, UpdateRequest}] *)
Definition is_deferred (r : Request) : bool :=
  match request_class r with
  | InstallRequest | UpdateRequest => true
  | RemoveRequest | ResolveRequest => false
  end.

(** What awaiting [request.prepare_response(self)] gives. *)
Inductive Prepared :=
| Deferred (action : M ManagerSuccess)
| Final (r : ManagerSuccess)
| Resolved (p : Pkg).

(** Modelled from the spec: the request classes are declared in
    [api.py].  Each request invokes the manager operation of its name
    (section 4.5): an install or update request awaits [to_install] or
    [to_update] and gets the deferred action that the consumer calls;
    the consumer does not call the result of a remove request, which
    therefore is what [Manager.remove], the one removal the manager has,
    returned; a resolve request awaits [resolve]. *)
Definition prepare_response (env : Env) (r : Request) : M Prepared :=
  match request_class r with
  | InstallRequest =>
      k <- to_install env (uri_origin r) (uri_id_or_slug r)
             (resolution_strategy r) (request_overwrite r) ;;
      ret (Deferred k)
  | UpdateRequest =>
      k <- to_update env (uri_origin r) (uri_id_or_slug r) ;;
      ret (Deferred k)
  | RemoveRequest =>
      x <- remove (uri_origin r) (uri_id_or_slug r) ;;
      ret (Final x)
  | ResolveRequest =>
      p <- resolve env (uri_origin r) (uri_id_or_slug r) (resolution_strategy r) ;;
      ret (Resolved p)
  end.

Inductive ErrorCode :=
| ManagerErrorCode (e : ManagerError)
| ApiErrorCode (name : string)
| INTERNAL_ERROR.

Inductive Response :=
| SuccessResponse (id_ : nat) (result_ : Prepared)
| ErrorResponse (id_ : option nat) (code : ErrorCode).

(** A websocket message: text that parses into a request, text that
    [parse_request] rejects with an [ApiError], or a message of another
    type, which the receiver skips. *)
Inductive Message :=
| TextRequest (r : Request)
| TextInvalid (api_error : string)
| NotText.

(** The tasks the receiver creates with [self.loop.create_task]. *)
Inductive Task :=
| TSchedule (r : Request) (future : nat)
| TRespond (r : Request)
| TRespondError (api_error : string).

(** What the loop did, in the order it did it. *)
Inductive Event :=
| Received (r : Request)
| RanPrepare (r : Request)
| RanDeferred (r : Request)
| Sent (r : Request).

Record Proto := {
  inbox : list Message;
  consumer_queue : list (Request * nat);
  futures : list (option (outcome Prepared));
  tasks : list Task;
  sent : list Response;
  trace : list Event;
  world : World
}.

(** [respond], up to the response it sends: the [except] clauses for
    [ManagerError] and [Exception] and the [else].  The clause for
    [ApiError] is the task [TRespondError] below. *)
Definition respond (request : Request) (awaitable : M Prepared) (w : World)
  : Response * World :=
  match awaitable w with
  | (Raised (EManagerError e), w') =>
      (ErrorResponse (Some (request_id request)) (ManagerErrorCode e), w')
  | (Raised error, w') =>
      (ErrorResponse (Some (request_id request)) INTERNAL_ERROR,
       log_exception "internal error" error w')
  | (Returned r, w') => (SuccessResponse (request_id request) r, w')
  end.

(** The closure [consume] of [consumer], once the future is done. *)
Definition consume (request : Request) (future : outcome Prepared)
  : M Prepared :=
  r <- lift future ;;
  if is_deferred request then
    match r with
    | Deferred action => x <- action ;; ret (Final x)
    | _ => raise (EOther "TypeError")
    end
  else ret r.

(** Whether [consume] gets to [await result()]. *)
Definition calls_deferred (request : Request) (future : outcome Prepared)
  : bool :=
  is_deferred request
  && match future with Returned (Deferred _) => true | _ => false end.

(** One iteration of [receiver]. *)
Definition receive (m : Message) (s : Proto) : Proto :=
  match m with
  | NotText => s
  | TextInvalid error =>
      {| inbox := inbox s; consumer_queue := consumer_queue s;
         futures := futures s; tasks := tasks s ++ [TRespondError error];
         sent := sent s; trace := trace s; world := world s |}
  | TextRequest request =>
      if is_mutating request then
        let future := length (futures s) in
        {| inbox := inbox s;
           consumer_queue := consumer_queue s ++ [(request, future)];
           futures := futures s ++ [None];
           tasks := tasks s ++ [TSchedule request future];
           sent := sent s; trace := trace s ++ [Received request];
           world := world s |}
      else
        {| inbox := inbox s; consumer_queue := consumer_queue s;
           futures := futures s; tasks := tasks s ++ [TRespond request];
           sent := sent s; trace := trace s ++ [Received request];
           world := world s |}
  end.

(** A task created by the receiver, run to its end. *)
Definition run_task (env : Env) (t : Task) (s : Proto) : Proto :=
  match t with
  | TSchedule request future =>
      let '(o, w') := prepare_response env request (world s) in
      {| inbox := inbox s; consumer_queue := consumer_queue s;
         futures := <[future := Some o]> (futures s); tasks := tasks s;
         sent := sent s; trace := trace s ++ [RanPrepare request];
         world := w' |}
  | TRespond request =>
      let '(response, w') :=
        respond request (prepare_response env request) (world s) in
      {| inbox := inbox s; consumer_queue := consumer_queue s;
         futures := futures s; tasks := tasks s;
         sent := sent s ++ [response];
         trace := trace s ++ [RanPrepare request; Sent request];
         world := w' |}
  | TRespondError error =>
      {| inbox := inbox s; consumer_queue := consumer_queue s;
         futures := futures s; tasks := tasks s;
         sent := sent s ++ [ErrorResponse None (ApiErrorCode error)];
         trace := trace s; world := world s |}
  end.

(** One iteration of [consumer], from [consumer_queue.get()] to
    [task_done()], for a head of the queue whose future is [done]. *)
Definition consumer_iteration (request : Request) (done : outcome Prepared)
    (queue' : list (Request * nat)) (s : Proto) : Proto :=
  let '(response, w') := respond request (consume request done) (world s) in
  {| inbox := inbox s; consumer_queue := queue';
     futures := futures s; tasks := tasks s;
     sent := sent s ++ [response];
     trace := trace s
              ++ (if calls_deferred request done then [RanDeferred request] else [])
              ++ [Sent request];
     world := w' |}.

(** What the event loop does next. *)
Inductive Choice :=
| Receive
| RunTask (i : nat)
| Consume.

(** A step of the event loop; [None] when the chosen coroutine cannot
    go on: no message has arrived, there is no such task, or the future
    at the head of the queue is not done. *)
Definition step (env : Env) (c : Choice) (s : Proto) : option Proto :=
  match c with
  | Receive =>
      match inbox s with
      | [] => None
      | m :: later =>
          Some (receive m
                  {| inbox := later; consumer_queue := consumer_queue s;
                     futures := futures s; tasks := tasks s;
                     sent := sent s; trace := trace s; world := world s |})
      end
  | RunTask i =>
      match tasks s !! i with
      | None => None
      | Some t =>
          Some (run_task env t
                  {| inbox := inbox s; consumer_queue := consumer_queue s;
                     futures := futures s; tasks := delete i (tasks s);
                     sent := sent s; trace := trace s; world := world s |})
      end
  | Consume =>
      match consumer_queue s with
      | [] => None
      | (request, future) :: queue' =>
          match futures s !! future with
          | Some (Some done) => Some (consumer_iteration request done queue' s)
          | _ => None
          end
      end
  end.

Fixpoint run (env : Env) (cs : list Choice) (s : Proto) : option Proto :=
  match cs with
  | [] => Some s
  | c :: cs' =>
      match step env c s with
      | Some s' => run env cs' s'
      | None => None
      end
  end.

(** [poll] starts with an empty queue and the consumer waiting on it. *)
Definition poll (messages : list Message) (w : World) : Proto :=
  {| inbox := messages; consumer_queue := []; futures := []; tasks := [];
     sent := []; trace := []; world := w |}.

(** The mutating requests received, in the order of their arrival. *)
Definition received_mutating (t : list Event) : list Request :=
  flat_map (fun e => match e with
                     | Received r => if is_mutating r then [r] else []
                     | _ => []
                     end) t.

(** The mutating requests answered, in the order of the answers. *)
Definition answered_mutating (t : list Event) : list Request :=
  flat_map (fun e => match e with
                     | Sent r => if is_mutating r then [r] else []
                     | _ => []
                     end) t.

(** Whenever a deferred action runs, the mutating requests that arrived
    before its request have all been answered, in their order of
    arrival. *)
Definition deferred_in_order (t : list Event) : Prop :=
  forall t1 r t2, t = t1 ++ RanDeferred r :: t2 ->
    exists later, received_mutating t1 = answered_mutating t1 ++ r :: later.

(** ** Concrete packages, archives and worlds *)

Module Sample.

Definition addons : Path := ["home"; "wow"; "AddOns"].

Definition mk_pkg (origin_ id_ slug_ file_id_ version_ download_url_ : string)
    (folder_names : list string) : Pkg :=
  {| origin := origin_; id := id_; slug := slug_; name := slug_;
     description := ""; url := ""; file_id := file_id_;
     download_url := download_url_; date_published := "";
     version := version_; options := {| strategy := "default" |};
     folders := map (fun f => {| path := joinpath addons f |}) folder_names |}.

Definition member (root_ file_ : string) : ZipMember :=
  {| root := root_; rest := [file_]; data := "data" |}.

(** Two installed packages of the same origin. *)
Definition alpha : Pkg :=
  mk_pkg "curse" "1" "alpha" "100" "1.0" "https://curse/alpha-100.zip" ["Alpha"].
Definition beta : Pkg :=
  mk_pkg "curse" "2" "beta" "200" "1.0" "https://curse/beta-200.zip" ["Beta"].

(** What the resolvers know: a newer build of alpha, and gamma. *)
Definition alpha_101 : Pkg :=
  mk_pkg "curse" "1" "alpha" "101" "1.0" "https://curse/alpha-101.zip" [].
Definition gamma : Pkg :=
  mk_pkg "curse" "3" "gamma" "300" "0.1" "https://curse/gamma-300.zip" [].

Definition curse_resolver : Resolver := fun id_or_slug _ =>
  if bool_decide (id_or_slug = "1") || bool_decide (id_or_slug = "alpha")
  then Returned alpha_101
  else if bool_decide (id_or_slug = "3") || bool_decide (id_or_slug = "gamma")
  then Returned gamma
  else Raised (EManagerError PkgNonexistent).

(** The archive behind each download location. *)
Definition env_with (alpha_101_zip gamma_zip : list ZipMember) : Env :=
  {| addon_dir := addons;
     resolvers := [("curse", curse_resolver)];
     http_get := fun u =>
       if bool_decide (u = "https://curse/alpha-101.zip")
       then inr (ZipBytes alpha_101_zip)
       else if bool_decide (u = "https://curse/gamma-300.zip")
       then inr (ZipBytes gamma_zip)
       else inl "ClientError";
     read_bytes := fun _ => inl "FileNotFoundError" |}.

Definition tree (file_ : string) : Tree := [([file_], "old data")].

Definition world_of (installed : list Pkg) (on_disk : list (string * Tree))
  : World :=
  {| disk := list_to_map (map (fun e => (joinpath addons (fst e), snd e)) on_disk);
     trashed := [];
     db := {| rows := installed; pending := []; commits := 0 |};
     log := [] |}.

(** alpha and beta installed, their folders on disk. *)
Definition two_installed : World :=
  world_of [alpha; beta]
           [("Alpha", tree "Alpha.toc"); ("Beta", tree "Beta.toc")].

(** alpha installed; next to it a folder no package owns. *)
Definition alpha_and_stray : World :=
  world_of [alpha] [("Alpha", tree "Alpha.toc"); ("Stray", tree "Stray.toc")].

(** alpha installed, nothing else. *)
Definition alpha_only : World :=
  world_of [alpha] [("Alpha", tree "Alpha.toc")].

(** beta installed, nothing else. *)
Definition beta_only : World :=
  world_of [beta] [("Beta", tree "Beta.toc")].

(** The new build of alpha ships a folder that beta owns. *)
Definition clash_zip : list ZipMember :=
  [member "Alpha" "Alpha.toc"; member "Beta" "Extra.lua"].
Definition env_clash : Env := env_with clash_zip [].


(** The new build of alpha ships its own folder only; gamma ships a
    folder named like beta's. *)
Definition alpha_zip : list ZipMember :=
  [member "Alpha" "Alpha.toc"; member "Alpha" "New.lua"].
Definition gamma_zip : list ZipMember := [member "Beta" "Gamma.lua"].
Definition env_plain : Env := env_with alpha_zip gamma_zip.

(** Two protocol requests: install gamma, then remove beta. *)
Definition install_gamma : Request :=
  {| request_id := 1; request_class := InstallRequest;
     uri_origin := "curse"; uri_id_or_slug := "gamma";
     resolution_strategy := "default"; request_overwrite := false |}.
Definition remove_beta : Request :=
  {| request_id := 2; request_class := RemoveRequest;
     uri_origin := "curse"; uri_id_or_slug := "beta";
     resolution_strategy := "default"; request_overwrite := false |}.

(** gamma as it is persisted from [gamma_zip]. *)
Definition gamma_installed : Pkg :=
  mk_pkg "curse" "3" "gamma" "300" "0.1" "https://curse/gamma-300.zip" ["Beta"].

(** beta installed; its folder is no longer on disk. *)
Definition beta_folder_missing : World := world_of [beta] [].


End Sample.

(** ** More of the batch orchestrator *)

(** [CliManager.resolve_many]; a value is [(origin, id_or_slug, strategy)]. *)
Definition resolve_many (env : Env) (values : list (string * string * string))
    (schedule : list nat) : M (list (Exception + Pkg)) :=
  rs <- gather (map (fun a => resolve env (fst (fst a)) (snd (fst a)) (snd a))
                  values) schedule ;;
  ret (map result rs).

(** [self.bar_positions.index(False)]; [None] stands for [ValueError]. *)
Fixpoint index_False (positions : list bool) : option nat :=
  match positions with
  | [] => None
  | taken :: later =>
      if taken then option_map S (index_False later) else Some 0
  end.

(** [CliManager.bar_position]: the slot handed out and [bar_positions]
    afterwards.  The second component of the Python tuple, the callback
    that gives the slot back, is [reset_position] at that slot. *)
Definition bar_position (bar_positions : list bool) : nat * list bool :=
  match index_False bar_positions with
  | Some b => (b, <[b := true]> bar_positions)
  | None => (length bar_positions, bar_positions ++ [true])
  end.

(** [self.bar_positions.__setitem__(b, False)]; [None] stands for
    [IndexError]. *)
Definition reset_position (b : nat) (bar_positions : list bool)
  : option (list bool) :=
  if (b <? length bar_positions)%nat
  then Some (<[b := false]> bar_positions)
  else None.

(** ** The report of the command line ([instawow/cli.py]) *)

(** A [ManagerResult] as [Report] tells them apart: a success, a
    [ManagerError], an [InternalError]. *)
Inductive ManagerResult :=
| Success (s : ManagerSuccess)
| Failure (e : ManagerError)
| Internal (error : Exception).

(** [error.__class__.__name__] *)
Definition class_name (e : Exception) : string :=
  match e with
  | EManagerError PkgAlreadyInstalled => "PkgAlreadyInstalled"
  | EManagerError (PkgConflictsWithInstalled _) => "PkgConflictsWithInstalled"
  | EManagerError (PkgConflictsWithPreexisting _) => "PkgConflictsWithPreexisting"
  | EManagerError PkgNonexistent => "PkgNonexistent"
  | EManagerError PkgTemporarilyUnavailable => "PkgTemporarilyUnavailable"
  | EManagerError PkgNotInstalled => "PkgNotInstalled"
  | EManagerError PkgOriginInvalid => "PkgOriginInvalid"
  | EManagerError PkgUpToDate => "PkgUpToDate"
  | EInternalError _ => "InternalError"
  | EOther cls => cls
  end.

(** [ManagerResult.message]: [fmt_message.format(self=self)], class by
    class. *)
Definition message (r : ManagerResult) : string :=
  match r with
  | Success (PkgInstalled new_pkg) => "installed " +:+ version new_pkg
  | Success (PkgUpdated old_pkg new_pkg) =>
      "updated " +:+ version old_pkg +:+ " to " +:+ version new_pkg
  | Success (PkgRemoved _) => "removed"
  | Failure PkgAlreadyInstalled => "package already installed"
  | Failure (PkgConflictsWithInstalled conflicting_pkg) =>
      "package folders conflict with installed package's "
      +:+ origin conflicting_pkg +:+ ":" +:+ slug conflicting_pkg
  | Failure (PkgConflictsWithPreexisting _) =>
      "package folders conflict with an add-on's not installed by instawow"
  | Failure PkgNonexistent => "package does not exist"
  | Failure PkgTemporarilyUnavailable => "package is temporarily unavailable"
  | Failure PkgNotInstalled => "package is not installed"
  | Failure PkgOriginInvalid => "package origin is invalid"
  | Failure PkgUpToDate => "package is up to date"
  | Internal error => "encountered " +:+ class_name error
  end.

(** [isinstance(r, (E.ManagerError, E.InternalError))] *)
Definition is_error (r : ManagerResult) : bool :=
  match r with
  | Success _ => false
  | Failure _ | Internal _ => true
  end.

Inductive Marker := _success | _failure | _warning.

Section Report.
Context {Key : Type}.

(** [Report]: the results by add-on, in the order of the mapping, and
    the filter. *)
Record Report := {
  results : list (Key * ManagerResult);
  filter_fn : ManagerResult -> bool
}.

(** [Report.code]: [any] over the results that are errors and pass the
    filter; a result object is always truthy. *)
Definition code (report : Report) : bool :=
  existsb (fun ar => is_error (snd ar) && filter_fn report (snd ar))
    (results report).

(** [_adorn_result] of [Report.__str__] *)
Definition _adorn_result (r : ManagerResult) : Marker :=
  match r with
  | Internal _ => _warning
  | Failure _ => _failure
  | Success _ => _success
  end.

(** [Report.__str__], before styling and wrapping: one entry per result
    that passes the filter, with its marker, its add-on and its
    message. *)
Definition report_entries (report : Report) : list (Marker * Key * string) :=
  map (fun ar => (_adorn_result (snd ar), fst ar, message (snd ar)))
    (List.filter (fun ar => filter_fn report (snd ar)) (results report)).

(** [report_filter] of the [update] command:
    [addons or not isinstance(result, E.PkgUpToDate)] *)
Definition report_filter (addons : list Key) (r : ManagerResult) : bool :=
  match addons with
  | _ :: _ => true
  | [] => match r with Failure PkgUpToDate => false | _ => true end
  end.

(** The report the [update] command exits with. *)
Definition update_report (addons : list Key)
    (results_ : list (Key * ManagerResult)) : Report :=
  {| results := results_; filter_fn := report_filter addons |}.

End Report.

(** ** Add-on definitions on the command line ([parse_into_defn]) *)

(** Modelled from the spec: [Defn] is declared in [resolvers.py]; it is
    the triple of section 3, and [parse_into_defn] leaves the strategy
    at its default. *)
Record Defn := {
  source : string;
  defn_name : string;
  defn_strategy : string
}.

Definition colon : Ascii.ascii := ":"%char.

(** [value.partition(':')[::2]]: what is before the first colon and what
    is after it; the whole value and the empty string when there is no
    colon. *)
Fixpoint partition_colon (value : string) : string * string :=
  match value with
  | EmptyString => (EmptyString, EmptyString)
  | String c later =>
      if bool_decide (c = colon) then (EmptyString, later)
      else (String c (fst (partition_colon later)), snd (partition_colon later))
  end.

(** [delim in value] *)
Fixpoint has_colon (value : string) : bool :=
  match value with
  | EmptyString => false
  | String c later => bool_decide (c = colon) || has_colon later
  end.

(** [parse_into_defn] on one string.  [decompose_url] is the manager's,
    which takes a URL apart where it knows the host.  On a sequence the
    function maps itself over the elements. *)
Definition parse_into_defn (decompose_url : string -> option (string * string))
    (value : string) (raise_invalid : bool) : outcome Defn :=
  if negb (has_colon value) then
    if raise_invalid then Raised (EOther "BadParameter")
    else Returned {| source := "*"; defn_name := value;
                     defn_strategy := "default" |}
  else
    match decompose_url value with
    | Some parts =>
        Returned {| source := fst parts; defn_name := snd parts;
                    defn_strategy := "default" |}
    | None =>
        Returned {| source := fst (partition_colon value);
                    defn_name := snd (partition_colon value);
                    defn_strategy := "default" |}
    end.

(** ** What the protocol loop owes its client *)

(** The id a response carries. *)
Definition response_id (r : Response) : option nat :=
  match r with
  | SuccessResponse i _ => Some i
  | ErrorResponse i _ => i
  end.

(** The id of the response a message asks for, when it asks for one. *)
Definition message_ids (m : Message) : list (option nat) :=
  match m with
  | TextRequest r => [Some (request_id r)]
  | TextInvalid _ => [None]
  | NotText => []
  end.

(** The ids of the responses that the tasks not yet run will send. *)
Definition task_ids (t : Task) : list (option nat) :=
  match t with
  | TRespond r => [Some (request_id r)]
  | TRespondError _ => [None]
  | TSchedule _ _ => []
  end.

(** The ids of the responses still owed: by the tasks and by the
    consumer for what is in its queue. *)
Definition owed_ids (s : Proto) : list (option nat) :=
  flat_map task_ids (tasks s)
  ++ map (fun rf => Some (request_id (fst rf))) (consumer_queue s).

(** ** The folder index *)

(** The column [path] of the folder table. *)
Definition folder_paths (rs : list Pkg) : list Path :=
  map (fun r => path (row_folder r)) (folder_rows rs).

(** What [logger.exception] adds to the log for an outcome that
    [intercept] meets. *)
Definition logged {A} (o : outcome A) : list (string * Exception) :=
  match o with
  | Raised error =>
      if is_ManagerError error then [] else [("internal error", error)]
  | Returned _ => []
  end.

(** * Properties *)

(** ** The monad *)

Lemma bind_returned {A B} (m : M A) (k : A -> M B) w a w' :
  m w = (Returned a, w') -> bind m k w = k a w'.
Proof. intros H. unfold bind. now rewrite H. Qed.

Lemma bind_raised {A B} (m : M A) (k : A -> M B) w e w' :
  m w = (Raised e, w') -> bind m k w = (Raised e, w').
Proof. intros H. unfold bind. now rewrite H. Qed.

(** ** Lookups *)

Lemma query_first_some {T} (table : list T) c :
  (exists r, In r table /\ c r = true) ->
  exists r, query_first table c = Some r /\ In r table /\ c r = true.
Proof.
  intros (r & Hin & Hc). unfold query_first.
  destruct (List.find c table) as [r'|] eqn:E.
  - exists r'. apply List.find_some in E. tauto.
  - exfalso. pose proof (List.find_none _ _ E r Hin) as Hn. congruence.
Qed.

Lemma get_filter_spec o x p :
  get_filter o x p = true <-> origin p = o /\ (id p = x \/ slug p = x).
Proof.
  unfold get_filter.
  rewrite andb_true_iff, orb_true_iff, !bool_decide_eq_true. tauto.
Qed.

Lemma get_found o x w p :
  In p (flushed (db w)) -> origin p = o -> id p = x \/ slug p = x ->
  exists q, get o x w = (Returned (Some q), w)
            /\ In q (flushed (db w)) /\ origin q = o /\ (id q = x \/ slug q = x).
Proof.
  intros Hin Ho Hx.
  destruct (query_first_some (flushed (db w)) (get_filter o x)) as (q & E & Hq & Hc).
  { exists p. split; [assumption|]. apply get_filter_spec. tauto. }
  exists q. unfold get. rewrite E. apply get_filter_spec in Hc. tauto.
Qed.

Lemma get_none o x w :
  get o x w = (Returned None, w) <->
  forall p, In p (flushed (db w)) -> ~ (origin p = o /\ (id p = x \/ slug p = x)).
Proof.
  unfold get, query_first. split.
  - intros H p Hin Hm.
    destruct (List.find (get_filter o x) (flushed (db w))) eqn:E; [congruence|].
    pose proof (List.find_none _ _ E p Hin) as Hn.
    apply get_filter_spec in Hm. congruence.
  - intros H.
    destruct (List.find (get_filter o x) (flushed (db w))) as [q|] eqn:E;
      [|reflexivity].
    apply List.find_some in E. destruct E as [Hin Hc].
    apply get_filter_spec in Hc. now destruct (H q Hin).
Qed.

Lemma install_already_installed_aux (env : Env) (o x s : string) (ov : bool)
    (w : World) (p : Pkg) :
  In p (flushed (db w)) -> origin p = o -> id p = x \/ slug p = x ->
  to_install env o x s ov w = (Raised (EManagerError PkgAlreadyInstalled), w).
Proof.
  intros Hin Ho Hx.
  destruct (get_found o x w p Hin Ho Hx) as (q & Hget & _).
  unfold to_install. now rewrite (bind_returned _ _ _ _ _ Hget).
Qed.

(** ** C1 *)

(** C1. When a package is already persisted for the reference (same
    origin, and the name is its id or its slug), the first phase of an
    install raises [PkgAlreadyInstalled] at once: the resolver, the
    download and the deferred action are never reached, and the disk,
    the trash, the database and the log are what they were.  The same
    holds for the install as a whole. *)
Theorem install_already_installed (env : Env) (o x s : string) (ov : bool)
    (w : World) (p : Pkg) :
  In p (flushed (db w)) -> origin p = o -> id p = x \/ slug p = x ->
  to_install env o x s ov w = (Raised (EManagerError PkgAlreadyInstalled), w)
  /\ Install env o x s ov w = (Raised (EManagerError PkgAlreadyInstalled), w).
Proof.
  intros Hin Ho Hx.
  pose proof (install_already_installed_aux env o x s ov w p Hin Ho Hx) as H1.
  split; [exact H1|].
  unfold Install, run_deferred. now rewrite (bind_raised _ _ _ _ _ H1).
Qed.

Lemma install_already_installed_witness :
  to_install (Sample.env_with [] []) "curse" "beta" "default" true
    Sample.two_installed
  = (Raised (EManagerError PkgAlreadyInstalled), Sample.two_installed)
  /\ Install (Sample.env_with [] []) "curse" "beta" "default" true
       Sample.two_installed
     = (Raised (EManagerError PkgAlreadyInstalled), Sample.two_installed).
Proof.
  apply (install_already_installed _ _ _ _ _ _ Sample.beta).
  - simpl. tauto.
  - reflexivity.
  - right. reflexivity.
Defined.

(** ** C10 *)




(** ** What the engine's steps can raise *)

Lemma send2trash_raises p w e w' :
  send2trash p w = (Raised e, w') -> e = EOther "OSError".
Proof.
  unfold send2trash. destruct (disk w !! p); intros H; now inversion H.
Qed.

Lemma trash_raises paths : forall w e w',
  trash paths w = (Raised e, w') -> e = EOther "OSError".
Proof.
  induction paths as [|p paths IH]; intros w e w' H; simpl in H.
  - discriminate.
  - unfold bind in H. destruct (send2trash p w) as [[[]|e0] w0] eqn:E.
    + eauto.
    + inversion H; subst. eapply send2trash_raises; eauto.
Qed.

Lemma extract_raises a parent ov w e w' :
  extract a parent ov w = (Raised e, w') ->
  exists c, e = EManagerError (PkgConflictsWithPreexisting c).
Proof.
  unfold extract, bind. destruct ov; simpl.
  - discriminate.
  - destruct (List.filter _ (root_folders a)) as [|c0 cs] eqn:E; simpl.
    + discriminate.
    + intros H. inversion H. eauto.
Qed.

Lemma PkgArchive_init_raises payload w e w' :
  PkgArchive_init payload w = (Raised e, w') -> e = EOther "BadZipFile".
Proof. destruct payload; simpl; intros H; now inversion H. Qed.

Lemma update_never_up_to_date env cur new payload w w' :
  update env cur new payload w <> (Raised (EManagerError PkgUpToDate), w').
Proof.
  unfold update, bind at 1. intros H.
  destruct (PkgArchive_init payload w) as [[a|e] w1] eqn:Ea.
  - unfold bind at 1 in H.
    destruct (query_first _ _) as [c|]; [discriminate|].
    unfold bind at 1, try_finally in H.
    match type of H with context [ bind ?m ?k w1 ] =>
      destruct (bind m k w1) as [[[]|e] w2] eqn:Eb end;
      simpl in H; [discriminate|].
    inversion H; subst. clear H.
    unfold bind at 1 in Eb.
    destruct (trash _ w1) as [[[]|e] w3] eqn:Et.
    + unfold bind at 1 in Eb. simpl in Eb. unfold bind at 1 in Eb.
      destruct (extract _ _ _ _) as [[[]|e] w4] eqn:Ex.
      * discriminate.
      * inversion Eb; subst. apply extract_raises in Ex as [c Hc]. discriminate.
    + inversion Eb; subst. apply trash_raises in Et. discriminate.
  - inversion H; subst. apply PkgArchive_init_raises in Ea. discriminate.
Qed.

Lemma _download_file_raises env u w e w' :
  _download_file env u w = (Raised e, w') -> exists cls, e = EOther cls.
Proof.
  unfold _download_file, lift.
  destruct (String.prefix _ _);
    [destruct (read_bytes env _)|destruct (http_get env _)]; simpl;
    intros H; inversion H; eauto.
Qed.

(** ** C5 *)

(** C5. For an installed package found by the lookup and a package the
    resolver returned for it, the first phase of an update, and the
    update as a whole, raise [PkgUpToDate] exactly when the two
    [file_id]s are equal.  Nothing else of the two packages, their
    [version] included, takes part. *)
Theorem update_up_to_date_iff_same_file_id (env : Env) (o x : string)
    (w : World) (cur_pkg new_pkg : Pkg) :
  get o x w = (Returned (Some cur_pkg), w) ->
  resolve env o x (strategy (options cur_pkg)) w = (Returned new_pkg, w) ->
  (fst (to_update env o x w) = Raised (EManagerError PkgUpToDate)
   <-> file_id cur_pkg = file_id new_pkg)
  /\ (fst (Update env o x w) = Raised (EManagerError PkgUpToDate)
      <-> file_id cur_pkg = file_id new_pkg).
Proof.
  intros Hget Hres.
  assert (to_update env o x w
          = (if bool_decide (file_id cur_pkg = file_id new_pkg)
             then raise (EManagerError PkgUpToDate)
             else payload <- _download_file env (download_url new_pkg) ;;
                  ret (update env cur_pkg new_pkg payload)) w) as Hto.
  { unfold to_update. rewrite (bind_returned _ _ _ _ _ Hget).
    unfold to_update_found. now rewrite (bind_returned _ _ _ _ _ Hres). }
  unfold Update, run_deferred, bind at 1. rewrite Hto. clear Hto.
  destruct (bool_decide_reflect (file_id cur_pkg = file_id new_pkg)) as [Heq|Hne].
  - simpl. tauto.
  - unfold bind at 1 2.
    destruct (_download_file env (download_url new_pkg) w) as [[payload|e] w1] eqn:Ed;
      simpl.
    + split; [split; [discriminate|tauto]|]. split; [|tauto].
      intros H. exfalso.
      destruct (update env cur_pkg new_pkg payload w1) as [r w2] eqn:Eu.
      simpl in H. subst r. now apply update_never_up_to_date in Eu.
    + apply _download_file_raises in Ed as [cls ->].
      split; (split; [discriminate|tauto]).
Qed.

Lemma update_up_to_date_iff_same_file_id_witness :
  version Sample.alpha = version Sample.alpha_101
  /\ (fst (to_update (Sample.env_with [] []) "curse" "alpha" Sample.alpha_only)
        = Raised (EManagerError PkgUpToDate)
      <-> file_id Sample.alpha = file_id Sample.alpha_101)
  /\ (fst (Update (Sample.env_with [] []) "curse" "alpha" Sample.alpha_only)
        = Raised (EManagerError PkgUpToDate)
      <-> file_id Sample.alpha = file_id Sample.alpha_101).
Proof.
  split; [reflexivity|].
  apply (update_up_to_date_iff_same_file_id (Sample.env_with [] [])
           "curse" "alpha" Sample.alpha_only Sample.alpha Sample.alpha_101);
    reflexivity.
Defined.

(** ** The folder table *)

Lemma in_folder_rows (rs : list Pkg) (r : FolderRow) :
  In r (folder_rows rs) <-> In (pkg r) rs /\ In (row_folder r) (folders (pkg r)).
Proof.
  unfold folder_rows. rewrite in_flat_map. split.
  - intros (p & Hp & Hr). apply in_map_iff in Hr as (f & <- & Hf). simpl. tauto.
  - intros [Hp Hf]. exists (pkg r). split; [assumption|].
    apply in_map_iff. exists (row_folder r). split; [now destruct r|assumption].
Qed.

Lemma archive_paths (env : Env) (ms : list ZipMember) (q : Path) :
  q ∈ map path (archive_folders env
                  {| archive := ms; root_folders := remove_dups (map root ms) |})
  <-> exists m, In m ms /\ q = joinpath (addon_dir env) (root m).
Proof.
  unfold archive_folders. simpl. rewrite map_map. simpl.
  rewrite list_elem_of_In, in_map_iff. split.
  - intros (f & <- & Hf).
    apply list_elem_of_In, elem_of_remove_dups, list_elem_of_In, in_map_iff in Hf
      as (m & <- & Hm).
    eauto.
  - intros (m & Hm & ->). exists (root m). split; [reflexivity|].
    apply list_elem_of_In, elem_of_remove_dups, list_elem_of_In, in_map_iff. eauto.
Qed.

(** ** C2 *)

(** C2. When the downloaded archive has a member whose top-level folder,
    placed under the add-on directory, is a folder path of a persisted
    package, the deferred [install] raises [PkgConflictsWithInstalled]
    with a persisted package that owns one of the archive's prospective
    folders, and the world is left as it was: nothing is trashed,
    nothing extracted, no row added, nothing committed.  Whether
    [overwrite] is set plays no role. *)
Theorem install_conflicts_with_installed (env : Env) (pkg0 : Pkg)
    (ms : list ZipMember) (overwrite : bool) (w : World)
    (owner : Pkg) (f : PkgFolder) (m : ZipMember) :
  In owner (flushed (db w)) -> In f (folders owner) -> In m ms ->
  path f = joinpath (addon_dir env) (root m) ->
  exists conflicting f' m',
    install env pkg0 (ZipBytes ms) overwrite w
    = (Raised (EManagerError (PkgConflictsWithInstalled conflicting)), w)
    /\ In conflicting (flushed (db w))
    /\ In f' (folders conflicting) /\ In m' ms
    /\ path f' = joinpath (addon_dir env) (root m')
    /\ (forall o x s,
          to_install env o x s overwrite w
          = (Returned (install env pkg0 (ZipBytes ms) overwrite), w) ->
          Install env o x s overwrite w
          = (Raised (EManagerError (PkgConflictsWithInstalled conflicting)), w)).
Proof.
  intros Hown Hf Hm Hpath.
  set (a := {| archive := ms; root_folders := remove_dups (map root ms) |}).
  destruct (query_first_some (folder_rows (flushed (db w)))
              (install_conflict_filter (map path (archive_folders env a))))
    as (c & Ec & Hc & Hcrit).
  { exists {| row_folder := f; pkg := owner |}. split.
    - apply in_folder_rows. simpl. tauto.
    - unfold install_conflict_filter. apply bool_decide_eq_true. simpl.
      apply archive_paths. eauto. }
  apply in_folder_rows in Hc as [Hc1 Hc2].
  unfold install_conflict_filter in Hcrit. apply bool_decide_eq_true in Hcrit.
  apply archive_paths in Hcrit as (m' & Hm' & Hp').
  assert (install env pkg0 (ZipBytes ms) overwrite w
          = (Raised (EManagerError (PkgConflictsWithInstalled (pkg c))), w))
    as Hinstall.
  { unfold install. simpl. unfold bind at 1. simpl. unfold bind at 1.
    fold a. now rewrite Ec. }
  exists (pkg c), (row_folder c), m'. repeat split; try assumption.
  intros o x s Hto. unfold Install, run_deferred.
  now rewrite (bind_returned _ _ _ _ _ Hto).
Qed.

Lemma install_conflicts_with_installed_witness :
  exists conflicting f' m',
    install (Sample.env_with [] [Sample.member "Beta" "Gamma.lua"]) Sample.gamma
      (ZipBytes [Sample.member "Beta" "Gamma.lua"]) true Sample.two_installed
    = (Raised (EManagerError (PkgConflictsWithInstalled conflicting)),
       Sample.two_installed)
    /\ In conflicting (flushed (db Sample.two_installed))
    /\ In f' (folders conflicting)
    /\ In m' [Sample.member "Beta" "Gamma.lua"]
    /\ path f' = joinpath Sample.addons (root m')
    /\ Install (Sample.env_with [] [Sample.member "Beta" "Gamma.lua"])
         "curse" "gamma" "default" true Sample.two_installed
       = (Raised (EManagerError (PkgConflictsWithInstalled conflicting)),
          Sample.two_installed).
Proof.
  destruct (install_conflicts_with_installed
           (Sample.env_with [] [Sample.member "Beta" "Gamma.lua"]) Sample.gamma
           [Sample.member "Beta" "Gamma.lua"] true Sample.two_installed
           Sample.beta {| path := joinpath Sample.addons "Beta" |}
           (Sample.member "Beta" "Gamma.lua"))
    as (c & f' & m' & H1 & H2 & H3 & H4 & H5 & H6).
  - simpl. tauto.
  - simpl. tauto.
  - simpl. tauto.
  - reflexivity.
  - exists c, f', m'.
    pose proof (H6 "curse" "gamma" "default" eq_refl) as H7. tauto.
Defined.

(** ** C3 *)

(** The rows the conflict query of [update] looks at: a row counts only
    when both its origin and its id differ from the new package's; a row
    of the same origin, or of the same id, is left out. *)
Lemma update_conflict_filter_spec (paths : list Path) (new_pkg : Pkg)
    (r : FolderRow) :
  update_conflict_filter paths new_pkg r = true
  <-> path (row_folder r) ∈ paths
      /\ pkg_origin r <> origin new_pkg /\ pkg_id r <> id new_pkg.
Proof.
  unfold update_conflict_filter.
  rewrite !andb_true_iff, !negb_true_iff, bool_decide_eq_true,
    !bool_decide_eq_false. tauto.
Qed.

Lemma update_conflict_filter_same_origin (paths : list Path) (new_pkg : Pkg)
    (r : FolderRow) :
  pkg_origin r = origin new_pkg -> update_conflict_filter paths new_pkg r = false.
Proof.
  intros H. apply not_true_is_false. rewrite update_conflict_filter_spec. tauto.
Qed.

(** C3, at the failing input.  alpha and beta are installed from the
    same origin under different ids, and the new build of alpha ships
    beta's folder.  beta is another package than the one being replaced
    and owns a prospective folder, yet the conflict query of [update]
    returns no row, because beta's rows have the new package's origin;
    the update goes on to trash alpha and stops in the extraction with
    [PkgConflictsWithPreexisting], not with [PkgConflictsWithInstalled]. *)
Theorem update_conflict_check_skips_same_origin :
  In Sample.beta (flushed (db Sample.two_installed))
  /\ same_key Sample.beta Sample.alpha_101 = false
  /\ In {| path := joinpath Sample.addons "Beta" |} (folders Sample.beta)
  /\ In (Sample.member "Beta" "Extra.lua") Sample.clash_zip
  /\ query_first (folder_rows (flushed (db Sample.two_installed)))
       (update_conflict_filter
          [joinpath Sample.addons "Alpha"; joinpath Sample.addons "Beta"]
          Sample.alpha_101)
     = None
  /\ fst (update Sample.env_clash Sample.alpha Sample.alpha_101
            (ZipBytes Sample.clash_zip) Sample.two_installed)
     = Raised (EManagerError (PkgConflictsWithPreexisting ["Beta"]))
  /\ fst (Update Sample.env_clash "curse" "alpha" Sample.two_installed)
     = Raised (EManagerError (PkgConflictsWithPreexisting ["Beta"])).
Proof.
  repeat split; try (simpl; tauto); vm_compute; reflexivity.
Qed.

(** ** The engine's steps and the database *)

Lemma send2trash_db p w : db (snd (send2trash p w)) = db w.
Proof. unfold send2trash. now destruct (disk w !! p). Qed.

Lemma trash_db paths : forall w, db (snd (trash paths w)) = db w.
Proof.
  induction paths as [|p paths IH]; intros w; simpl; [reflexivity|].
  unfold bind. pose proof (send2trash_db p w) as H.
  destruct (send2trash p w) as [[[]|e] w1]; simpl in *; [|assumption].
  now rewrite IH.
Qed.

Lemma extract_db a parent ov w : db (snd (extract a parent ov w)) = db w.
Proof.
  unfold extract, bind. destruct ov; simpl; [reflexivity|].
  now destruct (List.filter _ (root_folders a)).
Qed.


(** ** The trash *)

(** [trash] on paths that are all on disk: every entry leaves the disk
    and is in the trash with what was below it; nothing else on disk
    changes and nothing leaves the trash. *)
Lemma trash_moves (paths : list Path) : forall w,
  NoDup paths -> (forall q, In q paths -> is_Some (disk w !! q)) ->
  exists w',
    trash paths w = (Returned tt, w')
    /\ db w' = db w /\ log w' = log w
    /\ (forall q t, In q paths -> disk w !! q = Some t ->
                    disk w' !! q = None /\ In (q, t) (trashed w'))
    /\ (forall q, ~ In q paths -> disk w' !! q = disk w !! q)
    /\ (forall e, In e (trashed w) -> In e (trashed w')).
Proof.
  induction paths as [|p paths IH]; intros w Hnd Hon.
  - exists w. simpl. repeat split; tauto.
  - apply NoDup_cons in Hnd as [Hp Hnd].
    destruct (Hon p (or_introl eq_refl)) as [t Et].
    set (w1 := {| disk := delete p (disk w); trashed := trashed w ++ [(p, t)];
                  db := db w; log := log w |}).
    assert (send2trash p w = (Returned tt, w1)) as Es
      by (unfold send2trash; now rewrite Et).
    destruct (IH w1 Hnd) as (w' & Et' & Hdb & Hlog & Hmoved & Hkept & Htrash).
    { intros q Hq. simpl. rewrite lookup_delete_ne.
      - apply Hon. now right.
      - intros ->. apply Hp. now apply list_elem_of_In. }
    exists w'. simpl. rewrite (bind_returned _ _ _ _ _ Es).
    split; [exact Et'|]. split; [exact Hdb|]. split; [exact Hlog|].
    split; [|split].
    + intros q t' [<-|Hq] Eq.
      * split.
        -- rewrite Hkept; [apply lookup_delete_eq|].
           intros Hin. apply Hp. now apply list_elem_of_In.
        -- apply Htrash. simpl. apply in_or_app. right. left. congruence.
      * apply Hmoved; [assumption|]. simpl. rewrite lookup_delete_ne; [assumption|].
        intros ->. apply Hp. now apply list_elem_of_In.
    + intros q Hq. rewrite Hkept by tauto. simpl.
      apply lookup_delete_ne. intros ->. apply Hq. now left.
    + intros e He. apply Htrash. simpl. apply in_or_app. now left.
Qed.

Lemma trash_returned (paths : list Path) : forall w w',
  trash paths w = (Returned tt, w') ->
  NoDup paths /\ forall q, In q paths -> is_Some (disk w !! q).
Proof.
  induction paths as [|p paths IH]; intros w w' H; simpl in H.
  - split; [constructor|intros q []].
  - unfold bind in H. unfold send2trash in H at 1.
    destruct (disk w !! p) as [t|] eqn:Ep; [|discriminate].
    apply IH in H as [Hnd Hon]. simpl in Hon.
    split.
    + apply NoDup_cons. split; [|assumption].
      intros Hin. apply list_elem_of_In, Hon in Hin as [v Hv].
      now rewrite lookup_delete_eq in Hv.
    + intros q [<-|Hq]; [eauto|].
      destruct (Hon q Hq) as [v Hv].
      destruct (decide (p = q)) as [<-|Hne].
      * now rewrite lookup_delete_eq in Hv.
      * rewrite lookup_delete_ne in Hv by assumption. eauto.
Qed.



(** ** C4 *)





(** ** C8 *)

(** C8, as the code has it.  [remove] raises [PkgNotInstalled], and
    touches nothing, when no persisted row answers to the reference.
    When the lookup finds a package whose folders are all on disk,
    [remove] returns [PkgRemoved]:
    every folder of the package has left the disk and is in the trash
    with the contents it had, nothing that was in the trash is lost,
    entries of other paths are untouched, and the package's row is
    deleted and the deletion committed. *)
Theorem remove_moves_folders_to_trash (o x : string) (w : World) :
  ((forall q, In q (flushed (db w)) ->
              ~ (origin q = o /\ (id q = x \/ slug q = x))) ->
   remove o x w = (Raised (EManagerError PkgNotInstalled), w))
  /\ (forall p,
        get o x w = (Returned (Some p), w) ->
        NoDup (map path (folders p)) ->
        (forall f, In f (folders p) -> is_Some (disk w !! path f)) ->
        exists w',
          remove o x w = (Returned (PkgRemoved p), w')
          /\ (forall f t, In f (folders p) -> disk w !! path f = Some t ->
                disk w' !! path f = None /\ In (path f, t) (trashed w'))
          /\ (forall e, In e (trashed w) -> In e (trashed w'))
          /\ (forall q, ~ In q (map path (folders p)) ->
                disk w' !! q = disk w !! q)
          /\ rows (db w')
             = List.filter (fun q => negb (same_key q p)) (flushed (db w))
          /\ pending (db w') = []
          /\ ~ In p (rows (db w'))).
Proof.
  split.
  - intros Hnone. apply get_none in Hnone. unfold remove.
    now rewrite (bind_returned _ _ _ _ _ Hnone).
  - intros p Hget Hnd Hon.
    destruct (trash_moves (map path (folders p)) w Hnd)
      as (w1 & Et & Hdb & Hlog & Hmoved & Hkept & Htrash).
    { intros q Hq. apply in_map_iff in Hq as (f & <- & Hf). now apply Hon. }
    eexists. unfold remove. rewrite (bind_returned _ _ _ _ _ Hget).
    unfold remove_found. rewrite (bind_returned _ _ _ _ _ Et).
    unfold bind, db_delete, db_commit, ret. simpl.
    split; [reflexivity|]. simpl.
    assert (flushed {| rows := rows (db w1);
                       pending := pending (db w1) ++ [DbDelete p];
                       commits := commits (db w1) |}
            = List.filter (fun q => negb (same_key q p)) (flushed (db w)))
      as Hrows.
    { unfold flushed. simpl. rewrite fold_left_app. simpl. now rewrite Hdb. }
    repeat split.
    + apply (Hmoved (path f) t); [now apply in_map|assumption].
    + apply (Hmoved (path f) t); [now apply in_map|assumption].
    + exact Htrash.
    + exact Hkept.
    + exact Hrows.
    + rewrite Hrows. intros Hin. apply filter_In in Hin as [_ Hk].
      unfold same_key in Hk. rewrite !bool_decide_eq_true_2 in Hk by reflexivity.
      discriminate.
Qed.

Lemma remove_moves_folders_to_trash_witness :
  remove "curse" "gamma" Sample.two_installed
  = (Raised (EManagerError PkgNotInstalled), Sample.two_installed)
  /\ exists w',
       remove "curse" "beta" Sample.two_installed
       = (Returned (PkgRemoved Sample.beta), w')
       /\ disk w' !! joinpath Sample.addons "Beta" = None
       /\ In (joinpath Sample.addons "Beta", Sample.tree "Beta.toc") (trashed w')
       /\ rows (db w') = [Sample.alpha].
Proof.
  split.
  - apply (remove_moves_folders_to_trash "curse" "gamma" Sample.two_installed).
    intros q [<-|[<-|[]]] [_ [H|H]]; discriminate.
  - destruct (remove_moves_folders_to_trash "curse" "beta" Sample.two_installed)
      as [_ H].
    destruct (H Sample.beta eq_refl) as (w' & Hr & Hmoved & _ & _ & Hrows & _).
    + simpl. repeat constructor. intros Hin. inversion Hin.
    + intros f [<-|[]]. vm_compute. eauto.
    + exists w'. split; [exact Hr|].
      destruct (Hmoved {| path := joinpath Sample.addons "Beta" |}
                  (Sample.tree "Beta.toc")) as [H1 H2].
      * simpl. tauto.
      * vm_compute. reflexivity.
      * split; [exact H1|]. split; [exact H2|]. rewrite Hrows. reflexivity.
Defined.

(** C8, as stated, fails.  beta is persisted and its folder is no longer
    on disk.  [remove] finds the row, [send2trash] raises [OSError] at
    the missing folder, and neither [db.delete] nor [db.commit] is
    reached: nothing is moved to the trash and beta's row stays. *)
Lemma remove_raises_when_folder_missing :
  get "curse" "beta" Sample.beta_folder_missing
  = (Returned (Some Sample.beta), Sample.beta_folder_missing)
  /\ remove "curse" "beta" Sample.beta_folder_missing
     = (Raised (EOther "OSError"), Sample.beta_folder_missing)
  /\ rows (db (snd (remove "curse" "beta" Sample.beta_folder_missing)))
     = [Sample.beta]
  /\ trashed (snd (remove "curse" "beta" Sample.beta_folder_missing)) = [].
Proof.
  repeat split.
Qed.

(** ** The batch orchestrator *)

Lemma intercept_future {A} (awaitable : M A) (w : World) :
  exists w', intercept awaitable w = (Returned (future_of (fst (awaitable w))), w').
Proof.
  unfold intercept. destruct (awaitable w) as [[v|e] w1]; simpl.
  - eauto.
  - destruct (is_ManagerError e); eauto.
Qed.

Section Sorted.
Context {F : Type}.

Lemma insert_tuple_sorted (x : nat * F) (l : list (nat * F)) :
  StronglySorted key_lt l ->
  (forall y, In y l -> fst y <> fst x) ->
  exists r, insert_tuple x l = Returned r
            /\ Permutation (x :: l) r /\ StronglySorted key_lt r.
Proof.
  induction l as [|y l IH]; intros Hs Hne; simpl.
  - exists [x]. repeat split; [reflexivity|repeat constructor].
  - apply StronglySorted_inv in Hs as [Hs Hy].
    destruct (Nat.ltb_spec (fst x) (fst y)) as [Hlt|Hge].
    + exists (x :: y :: l). repeat split; [reflexivity|].
      constructor; [now constructor|].
      constructor; [exact Hlt|].
      eapply Forall_impl; [exact Hy|]. unfold key_lt. intros z Hz. simpl in *. lia.
    + destruct (Nat.ltb_spec (fst y) (fst x)) as [Hlt|Hge'].
      * destruct IH as (r & -> & Hperm & Hr); [assumption|intros; apply Hne; now right|].
        exists (y :: r). repeat split.
        -- rewrite perm_swap. now constructor.
        -- constructor; [assumption|].
           rewrite <- Hperm. constructor; [exact Hlt|exact Hy].
      * exfalso. apply (Hne y); [now left|lia].
Qed.

Lemma sorted_sorts (l : list (nat * F)) :
  NoDup (map fst l) ->
  exists r, sorted l = Returned r /\ Permutation l r /\ StronglySorted key_lt r.
Proof.
  induction l as [|x l IH]; intros Hnd; simpl.
  - exists []. repeat split; [reflexivity|constructor].
  - apply NoDup_cons in Hnd as [Hx Hnd].
    destruct (IH Hnd) as (r & -> & Hperm & Hr).
    destruct (insert_tuple_sorted x r Hr) as (r' & E & Hperm' & Hr').
    { intros y Hy Heq. apply Hx. rewrite <- Heq.
      apply list_elem_of_In, in_map. eapply Permutation_in; [|exact Hy].
      now symmetry. }
    exists r'. repeat split; [assumption| |assumption].
    rewrite <- Hperm'. now constructor.
Qed.

Lemma seq_strongly_sorted (n start : nat) : StronglySorted lt (seq start n).
Proof.
  revert start. induction n as [|n IH]; intros start; simpl; constructor.
  - apply IH.
  - apply Forall_forall. intros y Hy. apply list_elem_of_In, in_seq in Hy. lia.
Qed.

(** A list of tuples in strict key order whose keys are [0 .. n-1] in
    some order has them in that order. *)
Lemma sorted_keys (r : list (nat * F)) (n : nat) :
  StronglySorted key_lt r -> Permutation (map fst r) (seq 0 n) ->
  map fst r = seq 0 n.
Proof.
  intros Hr Hperm.
  apply (StronglySorted_unique_strong lt); [lia| |apply seq_strongly_sorted|exact Hperm].
  clear Hperm. induction Hr as [|x r Hr IH Hx]; simpl; constructor; [assumption|].
  apply Forall_forall. intros k Hk.
  apply list_elem_of_In, in_map_iff in Hk as (y & <- & Hy).
  rewrite Forall_forall in Hx. apply Hx. now apply list_elem_of_In.
Qed.

Lemma keys_are_positions (r : list (nat * F)) (n i : nat) (f : F) :
  map fst r = seq 0 n -> In (i, f) r -> map snd r !! i = Some f.
Proof.
  intros Hkeys Hin.
  apply list_elem_of_In, list_elem_of_lookup in Hin as [j Hj].
  assert (seq 0 n !! j = Some i) as Hi.
  { rewrite <- Hkeys, list_lookup_fmap, Hj. reflexivity. }
  apply lookup_seq in Hi as [-> _]. simpl.
  now rewrite list_lookup_fmap, Hj.
Qed.
End Sorted.

Lemma as_completed_runs {A} (coros : list (M A)) (schedule : list nat) :
  forall w, Forall (fun i => i < length coros) schedule ->
  exists done w',
    as_completed coros schedule w = (Returned done, w')
    /\ map fst done = schedule
    /\ forall i f, In (i, f) done ->
         exists c wi, coros !! i = Some c /\ f = future_of (fst (c wi)).
Proof.
  induction schedule as [|index later IH]; intros w Hlt; simpl.
  - exists [], w. repeat split. intros i f [].
  - apply Forall_cons in Hlt as [Hi Hlt].
    destruct (lookup_lt_is_Some_2 coros index Hi) as [coro Ec]. rewrite Ec.
    destruct (intercept_future coro w) as [w1 Ei].
    destruct (IH w1 Hlt) as (done & w' & Ed & Hkeys & Hdone).
    exists ((index, future_of (fst (coro w))) :: done), w'.
    rewrite (bind_returned _ _ _ _ _ Ei), (bind_returned _ _ _ _ _ Ed).
    split; [reflexivity|]. split; [simpl; now f_equal|].
    intros i f [Heq|Hin]; [|now apply Hdone].
    inversion Heq; subst. eauto.
Qed.

Lemma gather_runs {A : Type} (coros : list (M A))
    (schedule : list nat) (w : World) :
  Permutation schedule (seq 0 (length coros)) ->
  exists done ordered w',
    as_completed coros schedule w = (Returned done, w')
    /\ map fst done = schedule
    /\ (forall i f, In (i, f) done ->
          exists c wi, coros !! i = Some c /\ f = future_of (fst (c wi)))
    /\ sorted done = Returned ordered
    /\ Permutation done ordered
    /\ map fst ordered = seq 0 (length coros)
    /\ gather coros schedule w = (Returned (map snd ordered), w').
Proof.
  intros Hperm.
  destruct (as_completed_runs coros schedule w) as (done & w' & Ed & Hkeys & Hdone).
  { apply Forall_forall. intros i Hi.
    rewrite Hperm in Hi. apply list_elem_of_In, in_seq in Hi. lia. }
  destruct (sorted_sorts done) as (r & Es & Hpr & Hr).
  { rewrite Hkeys, Hperm. apply NoDup_ListNoDup, seq_NoDup. }
  exists done, r, w'. repeat split; try assumption.
  - apply sorted_keys; [assumption|].
    rewrite <- Hperm, <- Hkeys. symmetry. now apply Permutation_map.
  - unfold gather. rewrite (bind_returned _ _ _ _ _ Ed).
    unfold bind, lift. now rewrite Es.
Qed.

(** ** C6 *)

(** C6. Whatever the order in which the [N] submitted coroutines
    complete, [gather] returns (it does not raise) a list of [N]
    futures; the future that the coroutine submitted at position [i]
    ended in, completed whenever it was, is the element at position
    [i]. *)
Theorem gather_keeps_submission_order {A : Type} (coros : list (M A))
    (schedule : list nat) (w : World) :
  Permutation schedule (seq 0 (length coros)) ->
  exists done results w',
    as_completed coros schedule w = (Returned done, w')
    /\ map fst done = schedule
    /\ gather coros schedule w = (Returned results, w')
    /\ length results = length coros
    /\ (forall i f, In (i, f) done -> results !! i = Some f)
    /\ (forall i c, coros !! i = Some c ->
          exists wi, results !! i = Some (future_of (fst (c wi)))).
Proof.
  intros Hperm.
  destruct (gather_runs coros schedule w Hperm)
    as (done & r & w' & Ed & Hkeys & Hdone & _ & Hpr & Hr_keys & Hg).
  assert (forall i f, In (i, f) done -> map snd r !! i = Some f) as Hpos.
  { intros i f Hin. apply (keys_are_positions r (length coros)); [assumption|].
    eapply Permutation_in; eassumption. }
  exists done, (map snd r), w'.
  split; [exact Ed|]. split; [exact Hkeys|]. split; [exact Hg|]. split.
  { rewrite length_map, <- (length_map fst r), Hr_keys. apply length_seq. }
  split; [exact Hpos|].
  intros i c Hc.
  assert (In i (map fst done)) as Hi.
  { rewrite Hkeys. eapply Permutation_in; [symmetry; exact Hperm|].
    apply in_seq. split; [lia|]. exact (lookup_lt_Some coros i c Hc). }
  apply in_map_iff in Hi as ([i' f] & Heq & Hin). simpl in Heq. subst i'.
  destruct (Hdone i f Hin) as (c' & wi & Hc' & ->).
  exists wi. rewrite (Hpos _ _ Hin). congruence.
Qed.

Lemma perm_201 : Permutation [2; 0; 1] (seq 0 3).
Proof.
  simpl. etransitivity; [apply perm_swap|]. apply perm_skip, perm_swap.
Qed.

Lemma gather_keeps_submission_order_witness :
  Permutation [2; 0; 1] (seq 0 3)
  /\ exists done results w',
       as_completed
         [ret 7; raise (EManagerError PkgNonexistent); raise (EOther "ClientError")]
         [2; 0; 1] Sample.alpha_only = (Returned done, w')
       /\ map fst done = [2; 0; 1]
       /\ gather
            [ret 7; raise (EManagerError PkgNonexistent); raise (EOther "ClientError")]
            [2; 0; 1] Sample.alpha_only = (Returned results, w')
       /\ results = [FutResult 7;
                     FutException (EManagerError PkgNonexistent);
                     FutException (EInternalError (EOther "ClientError"))].
Proof.
  split; [apply perm_201|].
  destruct (gather_keeps_submission_order
              [ret 7; raise (EManagerError PkgNonexistent);
               raise (EOther "ClientError")]
              [2; 0; 1] Sample.alpha_only perm_201)
    as (done & results & w' & Hd & Hk & Hg & _).
  exists done, results, w'. repeat split; try assumption.
  assert (fst (gather
                 [ret 7; raise (EManagerError PkgNonexistent);
                  raise (EOther "ClientError")]
                 [2; 0; 1] Sample.alpha_only)
          = Returned [FutResult 7;
                      FutException (EManagerError PkgNonexistent);
                      FutException (EInternalError (EOther "ClientError"))]) as E
    by reflexivity.
  rewrite Hg in E. simpl in E. now inversion E.
Defined.

(** ** C7 *)



(** ** The protocol layer *)

Lemma received_mutating_app t1 t2 :
  received_mutating (t1 ++ t2) = received_mutating t1 ++ received_mutating t2.
Proof. apply flat_map_app. Qed.

Lemma answered_mutating_app t1 t2 :
  answered_mutating (t1 ++ t2) = answered_mutating t1 ++ answered_mutating t2.
Proof. apply flat_map_app. Qed.

Lemma snoc_split {T} (t : list T) (e : T) t1 x t2 :
  t ++ [e] = t1 ++ x :: t2 ->
  (t2 = [] /\ t = t1 /\ e = x) \/ (exists t2', t2 = t2' ++ [e] /\ t = t1 ++ x :: t2').
Proof.
  destruct t2 as [|y t2 _] using rev_ind; intros H.
  - left. apply app_inj_tail in H. tauto.
  - right. exists t2. rewrite app_comm_cons, app_assoc in H.
    apply app_inj_tail in H as [-> ->]. tauto.
Qed.

Lemma deferred_in_order_snoc t e :
  deferred_in_order t ->
  (forall r, e = RanDeferred r ->
     exists later, received_mutating t = answered_mutating t ++ r :: later) ->
  deferred_in_order (t ++ [e]).
Proof.
  intros Ht He t1 r t2 Hsplit.
  apply snoc_split in Hsplit as [(_ & <- & ->)|(t2' & _ & ->)].
  - now apply He.
  - now apply (Ht t1 r t2').
Qed.

(** What every reachable state of the loop satisfies. *)
Record protocol_invariant (s : Proto) : Prop := {
  inv_queue :
    received_mutating (trace s)
    = answered_mutating (trace s) ++ map fst (consumer_queue s);
  inv_queue_mutating :
    forall r f, In (r, f) (consumer_queue s) -> is_mutating r = true;
  inv_tasks :
    forall r, In (TRespond r) (tasks s) -> is_mutating r = false;
  inv_deferred : deferred_in_order (trace s)
}.

Lemma poll_invariant messages w : protocol_invariant (poll messages w).
Proof.
  split; simpl; try tauto.
  intros t1 r t2 H. now destruct t1.
Qed.

Lemma receive_invariant m s :
  protocol_invariant s -> protocol_invariant (receive m s).
Proof.
  intros [Hq Hm Ht Hd]. destruct m as [r|e|]; simpl; [| |now split].
  - destruct (is_mutating r) eqn:Er; split; simpl.
    + rewrite received_mutating_app, answered_mutating_app, map_app. simpl.
      rewrite Er, Hq, ?app_nil_r, <- ?app_assoc. reflexivity.
    + intros r' f Hin. apply in_app_or in Hin as [Hin|[Heq|[]]]; [eauto|].
      now inversion Heq; subst.
    + intros r' Hin. apply in_app_or in Hin as [Hin|[Heq|[]]]; [eauto|discriminate].
    + apply deferred_in_order_snoc; [assumption|discriminate].
    + rewrite received_mutating_app, answered_mutating_app. simpl.
      now rewrite Er, !app_nil_r.
    + assumption.
    + intros r' Hin. apply in_app_or in Hin as [Hin|[Heq|[]]]; [eauto|].
      now inversion Heq; subst.
    + apply deferred_in_order_snoc; [assumption|discriminate].
  - split; simpl; try assumption.
    intros r' Hin. apply in_app_or in Hin as [Hin|[Heq|[]]]; [eauto|discriminate].
Qed.

Lemma run_task_invariant env t s :
  protocol_invariant s ->
  (forall r, t = TRespond r -> is_mutating r = false) ->
  protocol_invariant (run_task env t s).
Proof.
  intros [Hq Hm Ht Hd] Hr. destruct t as [r f|r|e]; simpl.
  - destruct (prepare_response env r (world s)) as [o w'].
    split; simpl; try assumption.
    + rewrite received_mutating_app, answered_mutating_app. simpl.
      now rewrite !app_nil_r.
    + apply deferred_in_order_snoc; [assumption|discriminate].
  - destruct (respond r (prepare_response env r) (world s)) as [response w'].
    split; simpl; try assumption.
    + rewrite received_mutating_app, answered_mutating_app. simpl.
      now rewrite (Hr r eq_refl), !app_nil_r.
    + change (trace s ++ [RanPrepare r; Sent r])
        with (trace s ++ [RanPrepare r] ++ [Sent r]).
      rewrite app_assoc.
      apply deferred_in_order_snoc; [|discriminate].
      apply deferred_in_order_snoc; [assumption|discriminate].
  - now split.
Qed.

Lemma consumer_iteration_invariant r f done queue' s :
  protocol_invariant s -> consumer_queue s = (r, f) :: queue' ->
  protocol_invariant (consumer_iteration r done queue' s).
Proof.
  intros [Hq Hm Ht Hd] Eq. unfold consumer_iteration.
  destruct (respond r (consume r done) (world s)) as [response w'].
  rewrite Eq in Hq, Hm. simpl in Hq.
  assert (is_mutating r = true) as Hr by (apply (Hm r f); now left).
  split; simpl.
  - rewrite !received_mutating_app, !answered_mutating_app. simpl. rewrite Hr.
    destruct (calls_deferred r done); simpl;
      rewrite !app_nil_r, Hq, <- app_assoc; reflexivity.
  - intros r' f' Hin. apply (Hm r' f'). now right.
  - assumption.
  - rewrite app_assoc. apply deferred_in_order_snoc; [|discriminate].
    destruct (calls_deferred r done).
    + apply deferred_in_order_snoc; [assumption|].
      intros r' Heq. inversion Heq; subst r'. eauto.
    + now rewrite app_nil_r.
Qed.

Lemma step_invariant env c s s' :
  protocol_invariant s -> step env c s = Some s' -> protocol_invariant s'.
Proof.
  intros Hs Hstep. destruct c as [|i|]; simpl in Hstep.
  - destruct (inbox s) as [|m later]; [discriminate|].
    inversion Hstep; subst. apply receive_invariant.
    destruct Hs. now split.
  - destruct (tasks s !! i) as [t|] eqn:Et; [|discriminate].
    inversion Hstep; subst. apply run_task_invariant.
    + destruct Hs as [Hq Hm Ht Hd]. split; simpl; try assumption.
      intros r Hin. apply Ht.
      apply list_elem_of_In. apply list_elem_of_In in Hin.
      eapply list_elem_of_delete_inv; exact Hin.
    + intros r ->. apply (inv_tasks s Hs).
      apply list_elem_of_In, list_elem_of_lookup. eauto.
  - destruct (consumer_queue s) as [|[r f] queue'] eqn:Eq; [discriminate|].
    destruct (futures s !! f) as [[done|]|]; try discriminate.
    inversion Hstep; subst. now apply (consumer_iteration_invariant r f).
Qed.

Lemma run_invariant env cs : forall s s',
  protocol_invariant s -> run env cs s = Some s' -> protocol_invariant s'.
Proof.
  induction cs as [|c cs IH]; intros s s' Hs Hrun; simpl in Hrun.
  - now inversion Hrun; subst.
  - destruct (step env c s) as [s1|] eqn:E; [|discriminate].
    eapply IH; [|exact Hrun]. eapply step_invariant; eauto.
Qed.

(** X15. Whatever the loop chooses to run next: the mutating requests
    are answered in the order of their arrival, and a deferred install
    or update action runs only after every mutating request that arrived
    earlier has been answered. *)
Lemma deferred_actions_follow_arrival_order env messages w cs s :
  run env cs (poll messages w) = Some s ->
  (exists waiting, received_mutating (trace s)
                   = answered_mutating (trace s) ++ waiting)
  /\ deferred_in_order (trace s).
Proof.
  intros Hrun.
  destruct (run_invariant env cs _ _ (poll_invariant messages w) Hrun)
    as [Hq _ _ Hd].
  split; [eauto|assumption].
Qed.

(** The first phase of an install or an update changes nothing: the
    world it returns is the world it was given. *)
Lemma resolve_world env o x st w : snd (resolve env o x st w) = w.
Proof.
  unfold resolve, bind, MemberDict_get.
  destruct (List.find _ (resolvers env)) as [kv|]; simpl; [|reflexivity].
  unfold lift. now destruct (snd kv x st).
Qed.

Lemma _download_file_world env u w : snd (_download_file env u w) = w.
Proof. unfold _download_file, lift. now destruct (String.prefix _ _). Qed.

Lemma to_install_world env o x st ov w : snd (to_install env o x st ov w) = w.
Proof.
  unfold to_install, bind at 1. simpl.
  destruct (query_first _ _); [reflexivity|].
  unfold bind at 1. pose proof (resolve_world env o x st w) as Hr.
  destruct (resolve env o x st w) as [[p|e] w1]; simpl in Hr; subst; [|reflexivity].
  unfold bind. pose proof (_download_file_world env (download_url p) w) as Hd.
  now destruct (_download_file env (download_url p) w) as [[b|e] w1]; simpl in *; subst.
Qed.

Lemma to_update_world env o x w : snd (to_update env o x w) = w.
Proof.
  unfold to_update, bind at 1. simpl.
  destruct (query_first _ _) as [cur|]; [|reflexivity].
  unfold to_update_found, bind at 1.
  pose proof (resolve_world env o x (strategy (options cur)) w) as Hr.
  destruct (resolve env o x _ w) as [[p|e] w1]; simpl in Hr; subst; [|reflexivity].
  destruct (bool_decide _); [reflexivity|].
  unfold bind. pose proof (_download_file_world env (download_url p) w) as Hd.
  now destruct (_download_file env (download_url p) w) as [[b|e] w1]; simpl in *; subst.
Qed.

(** ** C9 *)

(** C9, at the failing input.  beta is installed; the client sends an
    install of gamma, whose archive ships a folder named like beta's,
    and then a removal of beta.  Both requests are queued in this order,
    and the answers are sent in this order.  But the removal is carried
    out by the task that prepares the second request: once both messages
    are received, that task can run at once, and beta's folder is in the
    trash and its row deleted while the install has not even been
    prepared.  The deferred install then finds no conflict and succeeds.
    Had the first request been completed before the second one's
    mutating step began, the install would have been refused with
    [PkgConflictsWithInstalled]. *)
Theorem remove_request_overtakes_queued_install :
  (fun s => (trace s, consumer_queue s,
             disk (world s) !! joinpath Sample.addons "Beta",
             trashed (world s), rows (db (world s))))
    <$> run Sample.env_plain [Receive; Receive; RunTask 1]
          (poll [TextRequest Sample.install_gamma; TextRequest Sample.remove_beta]
             Sample.beta_only)
  = Some ([Received Sample.install_gamma; Received Sample.remove_beta;
           RanPrepare Sample.remove_beta],
          [(Sample.install_gamma, 0); (Sample.remove_beta, 1)],
          None,
          [(joinpath Sample.addons "Beta", Sample.tree "Beta.toc")],
          [])
  /\ (fun s => (trace s, sent s, rows (db (world s))))
       <$> run Sample.env_plain
             [Receive; Receive; RunTask 1; RunTask 0; Consume; Consume]
             (poll [TextRequest Sample.install_gamma; TextRequest Sample.remove_beta]
                Sample.beta_only)
     = Some ([Received Sample.install_gamma; Received Sample.remove_beta;
              RanPrepare Sample.remove_beta; RanPrepare Sample.install_gamma;
              RanDeferred Sample.install_gamma; Sent Sample.install_gamma;
              Sent Sample.remove_beta],
             [SuccessResponse 1 (Final (PkgInstalled Sample.gamma_installed));
              SuccessResponse 2 (Final (PkgRemoved Sample.beta))],
             [Sample.gamma_installed])
  /\ (fun s => (sent s, rows (db (world s))))
       <$> run Sample.env_plain
             [Receive; RunTask 0; Consume; Receive; RunTask 0; Consume]
             (poll [TextRequest Sample.install_gamma; TextRequest Sample.remove_beta]
                Sample.beta_only)
     = Some ([ErrorResponse (Some 1)
                (ManagerErrorCode (PkgConflictsWithInstalled Sample.beta));
              SuccessResponse 2 (Final (PkgRemoved Sample.beta))],
             []).
Proof.
  repeat split; vm_compute; reflexivity.
Qed.

(** * More properties of the code *)

(** ** Resolving *)

Lemma MemberDict_get_missing (d : list (string * Resolver)) (key : string)
    (w : World) :
  (forall kv, In kv d -> fst kv <> key) ->
  MemberDict_get d key w = (Raised (EManagerError PkgOriginInvalid), w).
Proof.
  intros Hmiss. unfold MemberDict_get.
  destruct (List.find _ d) as [kv|] eqn:E; [|reflexivity].
  apply List.find_some in E as [Hin Hk]. apply bool_decide_eq_true in Hk.
  now destruct (Hmiss kv Hin).
Qed.

(** X1. An origin that no resolver is registered for is a typed
    failure: [resolve] raises [PkgOriginInvalid] and leaves the world
    alone; so does the first phase of an install of a reference that is
    not installed, and the first phase of an update of a package
    recorded under such an origin. *)
Theorem resolve_unregistered_origin (env : Env) (o x st : string) (ov : bool)
    (w : World) :
  (forall kv, In kv (resolvers env) -> fst kv <> o) ->
  resolve env o x st w = (Raised (EManagerError PkgOriginInvalid), w)
  /\ (get o x w = (Returned None, w) ->
      to_install env o x st ov w = (Raised (EManagerError PkgOriginInvalid), w))
  /\ (forall cur_pkg, get o x w = (Returned (Some cur_pkg), w) ->
      to_update env o x w = (Raised (EManagerError PkgOriginInvalid), w)).
Proof.
  intros Hmiss.
  assert (forall st', resolve env o x st' w
                      = (Raised (EManagerError PkgOriginInvalid), w)) as Hres.
  { intros st'. unfold resolve.
    now rewrite (bind_raised _ _ _ _ _ (MemberDict_get_missing _ _ w Hmiss)). }
  split; [apply Hres|]. split.
  - intros Hget. unfold to_install. rewrite (bind_returned _ _ _ _ _ Hget).
    now rewrite (bind_raised _ _ _ _ _ (Hres st)).
  - intros cur_pkg Hget. unfold to_update.
    rewrite (bind_returned _ _ _ _ _ Hget). unfold to_update_found.
    now rewrite (bind_raised _ _ _ _ _ (Hres _)).
Qed.

Lemma resolve_unregistered_origin_witness :
  resolve Sample.env_plain "wowi" "alpha" "default" Sample.alpha_only
  = (Raised (EManagerError PkgOriginInvalid), Sample.alpha_only)
  /\ to_install Sample.env_plain "wowi" "alpha" "default" false Sample.alpha_only
     = (Raised (EManagerError PkgOriginInvalid), Sample.alpha_only).
Proof.
  destruct (resolve_unregistered_origin Sample.env_plain "wowi" "alpha"
              "default" false Sample.alpha_only) as (H1 & H2 & _).
  - intros kv [<-|[]]. discriminate.
  - split; [exact H1|]. apply H2. reflexivity.
Defined.

(** X2. The first phase of an install and of an update only reads: with
    whatever outcome, for every reference and every state of the
    database and the disk, the world [to_install] and [to_update] hand
    back is the world they were given.  Nothing is trashed, extracted,
    added or committed before the deferred action is called. *)
Theorem first_phase_only_reads (env : Env) (o x st : string) (ov : bool)
    (w : World) :
  snd (to_install env o x st ov w) = w /\ snd (to_update env o x w) = w.
Proof. split; [apply to_install_world|apply to_update_world]. Qed.

(** ** The archive handler *)

Lemma last_joinpath (parent : Path) (n : string) :
  last (joinpath parent n) = Some n.
Proof. unfold joinpath. apply last_snoc. Qed.

Lemma is_child_spec (parent k : Path) :
  is_child parent k = true <-> exists n, k = joinpath parent n.
Proof.
  unfold is_child. split.
  - destruct (last k) as [n|]; [|discriminate].
    intros H. apply bool_decide_eq_true in H. eauto.
  - intros [n ->]. rewrite last_joinpath. now apply bool_decide_eq_true.
Qed.

(** The names [iterdir] gives are the names of the entries that exist
    right below the folder. *)
Lemma iterdir_names (parent : Path) (d : gmap Path Tree) (f : string) :
  f ∈ map path_name (iterdir parent d) <-> is_Some (d !! joinpath parent f).
Proof.
  unfold iterdir. rewrite list_elem_of_In, in_map_iff. split.
  - intros (k & <- & Hk). apply filter_In in Hk as [Hk Hc].
    apply is_child_spec in Hc as [n ->].
    unfold path_name. rewrite last_joinpath. simpl.
    apply in_map_iff in Hk as ([k v] & Heq & Hkv). simpl in Heq. subst k.
    apply list_elem_of_In, elem_of_map_to_list in Hkv. eauto.
  - intros [v Hv]. exists (joinpath parent f). split.
    + unfold path_name. now rewrite last_joinpath.
    + apply filter_In. split.
      * apply in_map_iff. exists (joinpath parent f, v). split; [reflexivity|].
        now apply list_elem_of_In, elem_of_map_to_list.
      * apply is_child_spec. eauto.
Qed.

(** X3. Without [overwrite], [extract] writes nothing when a top-level
    folder of the archive is already on disk right below the parent
    folder: it raises [PkgConflictsWithPreexisting] with exactly the
    top-level folders that are on disk and leaves the world as it was.
    When none is on disk, and always with [overwrite], it extracts. *)
Theorem extract_refuses_folders_on_disk (a : PkgArchive) (parent : Path)
    (w : World) :
  extract a parent false w
  = match List.filter
            (fun f => bool_decide (is_Some (disk w !! joinpath parent f)))
            (root_folders a) with
    | [] => extractall a parent w
    | on_disk =>
        (Raised (EManagerError (PkgConflictsWithPreexisting on_disk)), w)
    end
  /\ extract a parent true w = extractall a parent w.
Proof.
  split; [|reflexivity].
  unfold extract, bind.
  rewrite (filter_ext_in
             (fun f => bool_decide (f ∈ map path_name (iterdir parent (disk w))))
             (fun f => bool_decide (is_Some (disk w !! joinpath parent f)))).
  - now destruct (List.filter _ (root_folders a)).
  - intros f _. apply bool_decide_ext, iterdir_names.
Qed.

(** ** The trash *)

(** X5. [trash] gets through its paths exactly when they are distinct
    and every one of them is on disk.  Otherwise [send2trash] raises
    [OSError] at the first path that is missing when its turn comes, a
    path listed twice included; the database and the log are not
    touched either way. *)
Theorem trash_returns_iff_all_on_disk (paths : list Path) (w : World) :
  (fst (trash paths w) = Returned tt
   <-> NoDup paths /\ forall q, In q paths -> is_Some (disk w !! q))
  /\ (fst (trash paths w) <> Returned tt ->
      fst (trash paths w) = Raised (EOther "OSError"))
  /\ db (snd (trash paths w)) = db w.
Proof.
  split; [split|split].
  - intros H. destruct (trash paths w) as [r w'] eqn:E. simpl in H. subst r.
    now apply trash_returned in E.
  - intros [Hnd Hon].
    destruct (trash_moves paths w Hnd Hon) as (w' & -> & _). reflexivity.
  - intros H. destruct (trash paths w) as [[[]|e] w'] eqn:E; simpl in *.
    + now destruct H.
    + now rewrite (trash_raises _ _ _ _ E).
  - apply trash_db.
Qed.

Lemma trash_existing_moves (paths : list Path) : forall w,
  exists w',
    trash_existing paths w = (Returned tt, w')
    /\ db w' = db w /\ log w' = log w
    /\ (forall q, In q paths -> disk w' !! q = None)
    /\ (forall q t, In q paths -> disk w !! q = Some t -> In (q, t) (trashed w'))
    /\ (forall q, ~ In q paths -> disk w' !! q = disk w !! q)
    /\ (forall q, disk w !! q = None -> disk w' !! q = None)
    /\ (forall e, In e (trashed w) -> In e (trashed w')).
Proof.
  induction paths as [|p paths IH]; intros w.
  - exists w. simpl. repeat split; tauto.
  - simpl. unfold bind at 1, exists_. simpl.
    destruct (disk w !! p) as [t|] eqn:Ep.
    + rewrite bool_decide_eq_true_2 by eauto.
      unfold bind at 1, send2trash. rewrite Ep.
      match goal with |- context [ trash_existing paths ?w1 ] =>
        destruct (IH w1) as (w' & -> & Hdb & Hlog & Hgone & Hmoved & Hkept & Hnone & Htrash)
      end.
      simpl in *. exists w'. repeat split; try assumption.
      * intros q [<-|Hq]; [|now apply Hgone].
        apply Hnone. apply lookup_delete_eq.
      * intros q t' [<-|Hq] Eq.
        -- apply Htrash, in_or_app. right. left. congruence.
        -- destruct (decide (p = q)) as [<-|Hne].
           ++ apply Htrash, in_or_app. right. left. congruence.
           ++ apply Hmoved; [assumption|]. now rewrite lookup_delete_ne.
      * intros q Hq. rewrite Hkept by tauto.
        apply lookup_delete_ne. intros ->. apply Hq. now left.
      * intros q Hq. apply Hnone.
        destruct (decide (p = q)) as [<-|Hne];
          [apply lookup_delete_eq|now rewrite lookup_delete_ne].
      * intros e He. apply Htrash, in_or_app. now left.
    + rewrite bool_decide_eq_false_2 by (intros [? ?]; congruence).
      unfold bind at 1. simpl.
      destruct (IH w) as (w' & -> & Hdb & Hlog & Hgone & Hmoved & Hkept & Hnone & Htrash).
      exists w'. repeat split; try assumption.
      * intros q [<-|Hq]; [now apply Hnone|now apply Hgone].
      * intros q t' [<-|Hq] Eq; [congruence|now apply Hmoved].
      * intros q Hq. apply Hkept. tauto.
Qed.

(** X6. The guarded loop that an install with [overwrite] hands to
    [trash] never raises: a path that is not on disk is skipped.
    Afterwards none of the paths is on disk, whatever was at one of them
    is in the trash with its contents, every other entry of the disk is
    as it was, and nothing has left the trash. *)
Theorem trash_existing_skips_missing (paths : list Path) (w : World) :
  exists w',
    trash_existing paths w = (Returned tt, w')
    /\ (forall q, In q paths -> disk w' !! q = None)
    /\ (forall q t, In q paths -> disk w !! q = Some t -> In (q, t) (trashed w'))
    /\ (forall q, ~ In q paths -> disk w' !! q = disk w !! q)
    /\ (forall e, In e (trashed w) -> In e (trashed w'))
    /\ db w' = db w.
Proof.
  destruct (trash_existing_moves paths w)
    as (w' & E & Hdb & _ & Hgone & Hmoved & Hkept & _ & Htrash).
  exists w'. tauto.
Qed.

(** ** Extraction *)

Lemma joinpath_inj (parent : Path) (a b : string) :
  joinpath parent a = joinpath parent b -> a = b.
Proof. unfold joinpath. intros H. now apply app_inj_tail in H. Qed.

Lemma write_member_at (parent : Path) (d : gmap Path Tree) (m : ZipMember) :
  exists t, write_member parent d m !! joinpath parent (root m) = Some t
            /\ In (rest m, data m) t
            /\ forall r dat old, d !! joinpath parent (root m) = Some old ->
                 In (r, dat) old -> r <> rest m -> In (r, dat) t.
Proof.
  unfold write_member. rewrite lookup_insert_eq. eexists. split; [reflexivity|].
  split; [now left|].
  intros r dat old -> Hin Hne. right. simpl. apply filter_In. split; [assumption|].
  simpl. now rewrite bool_decide_eq_false_2.
Qed.

Lemma write_member_other (parent : Path) (d : gmap Path Tree) (m : ZipMember)
    (q : Path) :
  q <> joinpath parent (root m) -> write_member parent d m !! q = d !! q.
Proof. intros H. unfold write_member. now rewrite lookup_insert_ne. Qed.


(** An entry written stays, under its name, whatever is written after;
    its data stays too when no later member has the same name. *)
Lemma fold_write_member_keeps (parent : Path) (ms : list ZipMember) :
  forall (d : gmap Path Tree) p t r dat,
    d !! p = Some t -> In (r, dat) t ->
    exists t', fold_left (write_member parent) ms d !! p = Some t'
      /\ (exists dat', In (r, dat') t')
      /\ ((forall m, In m ms -> ~ (p = joinpath parent (root m) /\ r = rest m)) ->
          In (r, dat) t').
Proof.
  induction ms as [|m ms IH]; intros d p t r dat Hp Hin; simpl.
  - exists t. eauto.
  - destruct (decide (p = joinpath parent (root m))) as [->|Hne].
    + destruct (write_member_at parent d m) as (t1 & Ht1 & Hhead & Hold).
      destruct (decide (r = rest m)) as [->|Hr].
      * destruct (IH _ _ _ _ _ Ht1 Hhead) as (t' & Ht' & Hsome & _).
        exists t'. split; [assumption|]. split; [assumption|].
        intros Hno. exfalso. apply (Hno m); [now left|tauto].
      * destruct (IH _ _ _ _ _ Ht1 (Hold r dat t Hp Hin Hr)) as (t' & Ht' & Hsome & Hkeep).
        exists t'. split; [assumption|]. split; [assumption|].
        intros Hno. apply Hkeep. intros m' Hm'. apply Hno. now right.
    + assert (write_member parent d m !! p = Some t) as Hp'
        by now rewrite write_member_other.
      destruct (IH _ _ _ _ _ Hp' Hin) as (t' & Ht' & Hsome & Hkeep).
      exists t'. split; [assumption|]. split; [assumption|].
      intros Hno. apply Hkeep. intros m' Hm'. apply Hno. now right.
Qed.

Lemma fold_write_member_written (parent : Path) (ms : list ZipMember) :
  forall (d : gmap Path Tree) m, In m ms ->
    exists t, fold_left (write_member parent) ms d !! joinpath parent (root m) = Some t
      /\ (exists dat, In (rest m, dat) t)
      /\ (NoDup (map (fun m => (root m, rest m)) ms) -> In (rest m, data m) t).
Proof.
  induction ms as [|m0 ms IH]; intros d m Hm; [destruct Hm|].
  destruct Hm as [<-|Hm].
  - simpl. destruct (write_member_at parent d m0) as (t1 & Ht1 & Hhead & _).
    destruct (fold_write_member_keeps parent ms _ _ _ _ _ Ht1 Hhead)
      as (t' & Ht' & Hsome & Hkeep).
    exists t'. split; [assumption|]. split; [assumption|].
    intros Hnd. apply Hkeep. intros m' Hm' [Hp Hr].
    apply joinpath_inj in Hp. simpl in Hnd. apply NoDup_cons in Hnd as [Hnotin _].
    apply Hnotin. apply list_elem_of_In, in_map_iff. exists m'. split; [|assumption].
    now rewrite Hp, Hr.
  - simpl. destruct (IH (write_member parent d m0) m Hm) as (t & Ht & Hsome & Hdata).
    exists t. split; [assumption|]. split; [assumption|].
    intros Hnd. apply Hdata. simpl in Hnd. now apply NoDup_cons in Hnd as [_ Hnd].
Qed.

(** ** Installing *)

Lemma query_first_none {T} (table : list T) (c : T -> bool) :
  (forall r, In r table -> c r = false) -> query_first table c = None.
Proof.
  intros H. unfold query_first.
  destruct (List.find c table) as [r|] eqn:E; [|reflexivity].
  apply List.find_some in E as [Hin Hc]. rewrite (H r Hin) in Hc. discriminate.
Qed.

Lemma no_owner_no_conflict (env : Env) (ms : list ZipMember) (rs : list Pkg) :
  (forall q f m, In q rs -> In f (folders q) -> In m ms ->
                 path f <> joinpath (addon_dir env) (root m)) ->
  query_first (folder_rows rs)
    (install_conflict_filter
       (map path (archive_folders env
                    {| archive := ms; root_folders := remove_dups (map root ms) |})))
  = None.
Proof.
  intros Hno. apply query_first_none. intros r Hr.
  apply in_folder_rows in Hr as [Hq Hf].
  unfold install_conflict_filter. apply bool_decide_eq_false.
  intros Hin. apply archive_paths in Hin as (m & Hm & Hp).
  exact (Hno _ _ _ Hq Hf Hm Hp).
Qed.

Lemma flushed_add (s : Session) (p : Pkg) :
  flushed {| rows := rows s; pending := pending s ++ [DbAdd p];
             commits := commits s |}
  = flushed s ++ [p].
Proof. unfold flushed. simpl. now rewrite fold_left_app. Qed.

Lemma flushed_delete (s : Session) (p : Pkg) :
  flushed {| rows := rows s; pending := pending s ++ [DbDelete p];
             commits := commits s |}
  = List.filter (fun q => negb (same_key q p)) (flushed s).
Proof. unfold flushed. simpl. now rewrite fold_left_app. Qed.

(** X7. With [overwrite], an install gets through when its archive
    opens and holds members with plain names only, no persisted package
    owns one of its prospective folders, and no persisted row of the
    package's origin has the package's id or its slug, so that the keys
    of the tables admit the new row.  What is on disk under the
    archive's top-level names goes to the trash with its contents, the
    archive is extracted, and the package, with the archive's folders as
    its folders, is added after the rows that were there and committed
    in one commit. *)
Theorem install_overwrite_succeeds (env : Env) (pkg0 : Pkg)
    (ms : list ZipMember) (w : World) :
  (forall m, In m ms -> plain_member m = true) ->
  (forall q, In q (flushed (db w)) -> origin q = origin pkg0 ->
             id q <> id pkg0 /\ slug q <> slug pkg0) ->
  (forall q f m, In q (flushed (db w)) -> In f (folders q) -> In m ms ->
                 path f <> joinpath (addon_dir env) (root m)) ->
  exists w',
    install env pkg0 (ZipBytes ms) true w
    = (Returned
         (PkgInstalled
            (set_folders pkg0
               (archive_folders env
                  {| archive := ms; root_folders := remove_dups (map root ms) |}))),
       w')
    /\ rows (db w')
       = flushed (db w)
         ++ [set_folders pkg0
               (archive_folders env
                  {| archive := ms; root_folders := remove_dups (map root ms) |})]
    /\ pending (db w') = []
    /\ commits (db w') = S (commits (db w))
    /\ (forall m, In m ms ->
          is_Some (disk w' !! joinpath (addon_dir env) (root m)))
    /\ (forall m t, In m ms ->
          disk w !! joinpath (addon_dir env) (root m) = Some t ->
          In (joinpath (addon_dir env) (root m), t) (trashed w')).
Proof.
  intros _ _ Hno.
  set (a := {| archive := ms; root_folders := remove_dups (map root ms) |}).
  destruct (trash_existing_moves (map path (folders (set_folders pkg0 (archive_folders env a)))) w)
    as (w1 & Et & Hdb & _ & _ & Hmoved & _ & _ & _).
  eexists. unfold install. simpl. unfold bind at 1. simpl. unfold bind at 1.
  pose proof (no_owner_no_conflict env ms _ Hno) as Hq. fold a in Hq.
  fold a. rewrite Hq.
  rewrite (bind_returned _ _ _ _ _ Et).
  unfold bind, extract, extractall, db_add, db_commit, ret. simpl.
  split; [reflexivity|]. simpl.
  split; [|split; [reflexivity|split; [now rewrite Hdb|split]]].
  - rewrite flushed_add. now rewrite Hdb.
  - intros m Hm.
    destruct (fold_write_member_written (addon_dir env) ms (disk w1) m Hm)
      as (t & Ht & _). eauto.
  - intros m t Hm Ht. apply Hmoved; [|assumption].
    apply list_elem_of_In. apply (archive_paths env ms). eauto.
Qed.

Lemma install_overwrite_succeeds_witness :
  exists w',
    install Sample.env_plain Sample.gamma (ZipBytes Sample.gamma_zip) true
      Sample.alpha_and_stray
    = (Returned (PkgInstalled Sample.gamma_installed), w')
    /\ rows (db w') = [Sample.alpha; Sample.gamma_installed].
Proof.
  destruct (install_overwrite_succeeds Sample.env_plain Sample.gamma
              Sample.gamma_zip Sample.alpha_and_stray)
    as (w' & Hi & Hrows & _).
  - intros m [<-|[]]. reflexivity.
  - intros q [<-|[]] _. split; discriminate.
  - intros q f m [<-|[]] [<-|[]] [<-|[]]. discriminate.
  - exists w'. split; [exact Hi|exact Hrows].
Defined.

(** X8. Without [overwrite], an install whose prospective folders no
    persisted package owns, but one of which is on disk, raises
    [PkgConflictsWithPreexisting] with the top-level folders that are on
    disk, and the world is what it was: nothing is trashed or extracted
    and no row is added. *)
Theorem install_refuses_unowned_folder (env : Env) (pkg0 : Pkg)
    (ms : list ZipMember) (w : World) (m0 : ZipMember) :
  (forall q f m, In q (flushed (db w)) -> In f (folders q) -> In m ms ->
                 path f <> joinpath (addon_dir env) (root m)) ->
  In m0 ms -> is_Some (disk w !! joinpath (addon_dir env) (root m0)) ->
  exists on_disk,
    install env pkg0 (ZipBytes ms) false w
    = (Raised (EManagerError (PkgConflictsWithPreexisting on_disk)), w)
    /\ In (root m0) on_disk
    /\ (forall f, In f on_disk <->
          (exists m, In m ms /\ root m = f)
          /\ is_Some (disk w !! joinpath (addon_dir env) f)).
Proof.
  intros Hno Hm0 Hdisk.
  set (a := {| archive := ms; root_folders := remove_dups (map root ms) |}).
  set (on_disk := List.filter
         (fun f => bool_decide (is_Some (disk w !! joinpath (addon_dir env) f)))
         (root_folders a)).
  assert (forall f, In f on_disk <->
            (exists m, In m ms /\ root m = f)
            /\ is_Some (disk w !! joinpath (addon_dir env) f)) as Hspec.
  { intros f. unfold on_disk. rewrite filter_In, bool_decide_eq_true. simpl.
    rewrite <- list_elem_of_In, elem_of_remove_dups, list_elem_of_In, in_map_iff.
    split; intros [(m & H1 & H2) H3]; eauto. }
  assert (In (root m0) on_disk) as Hin by (apply Hspec; eauto).
  exists on_disk. split; [|tauto].
  unfold install. simpl. unfold bind at 1. simpl. unfold bind at 1.
  pose proof (no_owner_no_conflict env ms _ Hno) as Hq. fold a in Hq.
  fold a. rewrite Hq.
  assert (extract a (addon_dir env) false w
          = (Raised (EManagerError (PkgConflictsWithPreexisting on_disk)), w))
    as Hex.
  { unfold extract, bind.
    rewrite (filter_ext_in
               (fun f => bool_decide
                           (f ∈ map path_name (iterdir (addon_dir env) (disk w))))
               (fun f => bool_decide
                           (is_Some (disk w !! joinpath (addon_dir env) f))))
      by (intros f _; apply bool_decide_ext, iterdir_names).
    fold on_disk. destruct on_disk; [destruct Hin|reflexivity]. }
  unfold bind at 1. simpl. now rewrite (bind_raised _ _ _ _ _ Hex).
Qed.

Lemma install_refuses_unowned_folder_witness :
  exists on_disk,
    install Sample.env_plain Sample.gamma
      (ZipBytes [Sample.member "Stray" "Gamma.lua"]) false Sample.alpha_and_stray
    = (Raised (EManagerError (PkgConflictsWithPreexisting on_disk)),
       Sample.alpha_and_stray)
    /\ In "Stray" on_disk.
Proof.
  destruct (install_refuses_unowned_folder Sample.env_plain Sample.gamma
              [Sample.member "Stray" "Gamma.lua"] Sample.alpha_and_stray
              (Sample.member "Stray" "Gamma.lua")) as (on_disk & Hi & Hin & _).
  - intros q f m [<-|[]] [<-|[]] [<-|[]]. discriminate.
  - now left.
  - vm_compute. eauto.
  - exists on_disk. split; [exact Hi|exact Hin].
Defined.


(** ** What a completed operation leaves behind *)

Lemma bind_returned_inv {A B} (m : M A) (k : A -> M B) w b w' :
  bind m k w = (Returned b, w') ->
  exists a w1, m w = (Returned a, w1) /\ k a w1 = (Returned b, w').
Proof.
  unfold bind. destruct (m w) as [[a|e] w1]; [eauto|discriminate].
Qed.

Lemma get_returned o x w r w' :
  get o x w = (r, w') ->
  w' = w /\ r = Returned (List.find (get_filter o x) (flushed (db w))).
Proof. unfold get, query_first. intros H. inversion H. tauto. Qed.

Lemma find_snoc {T} (f : T -> bool) (l : list T) (x : T) :
  List.find f l = None -> f x = true -> List.find f (l ++ [x]) = Some x.
Proof.
  induction l as [|y l IH]; simpl; intros Hn Hx; [now rewrite Hx|].
  destruct (f y); [discriminate|auto].
Qed.

Lemma extract_returned a parent ov w w' :
  extract a parent ov w = (Returned tt, w') ->
  w' = with_disk w (fold_left (write_member parent) (archive a) (disk w)).
Proof.
  unfold extract. intros H.
  apply bind_returned_inv in H as ([] & w1 & H1 & H2).
  unfold extractall in H2. inversion H2; subst. clear H2.
  destruct ov; simpl in H1.
  - now inversion H1.
  - destruct (List.filter _ (root_folders a)); inversion H1. reflexivity.
Qed.

Lemma to_install_returned env o x st ov w k w1 :
  to_install env o x st ov w = (Returned k, w1) ->
  w1 = w /\ get o x w = (Returned None, w)
  /\ exists pkg_ payload,
       resolve env o x st w = (Returned pkg_, w)
       /\ k = install env pkg_ payload ov.
Proof.
  intros H. pose proof (to_install_world env o x st ov w) as Hw.
  rewrite H in Hw. simpl in Hw. subst w1. split; [reflexivity|].
  unfold to_install in H.
  apply bind_returned_inv in H as (cur & w2 & Hget & H).
  apply get_returned in Hget as [Hw2 Hcur]. subst w2.
  inversion Hcur; subst cur. clear Hcur.
  unfold get, query_first.
  destruct (List.find _ _) as [c|]; [discriminate|]. split; [reflexivity|].
  apply bind_returned_inv in H as (pkg_ & w2 & Hres & H).
  pose proof (resolve_world env o x st w) as Hw2. rewrite Hres in Hw2.
  simpl in Hw2. subst w2.
  apply bind_returned_inv in H as (payload & w3 & _ & H).
  inversion H. eauto.
Qed.

Lemma install_returned env pkg0 payload ov w r w' :
  install env pkg0 payload ov w = (Returned r, w') ->
  exists a, PkgArchive_init payload w = (Returned a, w)
    /\ r = PkgInstalled (set_folders pkg0 (archive_folders env a))
    /\ rows (db w') = flushed (db w) ++ [set_folders pkg0 (archive_folders env a)]
    /\ pending (db w') = [].
Proof.
  unfold install. intros H.
  apply bind_returned_inv in H as (a & w0 & Ha & H).
  assert (w0 = w) as -> by (destruct payload; inversion Ha; reflexivity).
  exists a. split; [assumption|].
  apply bind_returned_inv in H as (c & w0 & Hc & H).
  inversion Hc. subst c w0. clear Hc.
  destruct (query_first _ _); [discriminate|].
  apply bind_returned_inv in H as ([] & w1 & Ht & H).
  assert (db w1 = db w) as Hdb1.
  { destruct ov; [|now inversion Ht].
    destruct (trash_existing_moves
                (map path (folders (set_folders pkg0 (archive_folders env a)))) w)
      as (w1' & E & Hdb & _).
    rewrite E in Ht. now inversion Ht; subst. }
  apply bind_returned_inv in H as ([] & w2 & Hx & H).
  pose proof (extract_db a (addon_dir env) ov w1) as Hdb2.
  rewrite Hx in Hdb2. simpl in Hdb2.
  unfold bind, db_add, db_commit, ret in H. simpl in H. inversion H; subst.
  simpl. rewrite Hdb2, Hdb1, flushed_add. tauto.
Qed.

(** X9. A completed install can be looked up, and cannot be repeated.
    When [Install] returns, it returns [PkgInstalled] with a package
    that is now the last persisted row, everything committed, and the
    reference was not installed before.  If that package answers to the
    reference (the resolver returned a package of the origin asked for,
    whose id or slug is the name asked for), [get] now returns exactly
    it, and every further install of the reference raises
    [PkgAlreadyInstalled] and changes nothing. *)
Theorem install_then_lookup (env : Env) (o x st : string) (ov : bool)
    (w w' : World) (r : ManagerSuccess) :
  Install env o x st ov w = (Returned r, w') ->
  exists p,
    r = PkgInstalled p
    /\ get o x w = (Returned None, w)
    /\ rows (db w') = flushed (db w) ++ [p] /\ pending (db w') = []
    /\ (origin p = o -> id p = x \/ slug p = x ->
        get o x w' = (Returned (Some p), w')
        /\ forall st' ov',
             Install env o x st' ov' w'
             = (Raised (EManagerError PkgAlreadyInstalled), w')).
Proof.
  unfold Install, run_deferred. intros H.
  apply bind_returned_inv in H as (k & w1 & Hto & Hk).
  apply to_install_returned in Hto as (-> & Hget & pkg_ & payload & _ & ->).
  apply install_returned in Hk as (a & _ & -> & Hrows & Hpend).
  eexists. split; [reflexivity|]. split; [assumption|].
  split; [assumption|]. split; [assumption|].
  intros Ho Hx.
  assert (flushed (db w') = flushed (db w) ++ [set_folders pkg_ (archive_folders env a)])
    as Hfl by (unfold flushed at 1; now rewrite Hpend, <- Hrows).
  split.
  - unfold get, query_first. rewrite Hfl. do 2 f_equal. apply find_snoc.
    + apply get_returned in Hget as [_ Hget]. now inversion Hget.
    + apply get_filter_spec. tauto.
  - intros st' ov'. unfold run_deferred.
    erewrite bind_raised; [reflexivity|].
    apply (install_already_installed_aux env o x st' ov' w'
             (set_folders pkg_ (archive_folders env a))); try assumption.
    rewrite Hfl. apply in_or_app. right. now left.
Qed.

Lemma install_then_lookup_witness :
  Install Sample.env_plain "curse" "gamma" "default" true Sample.alpha_only
  = (Returned (PkgInstalled Sample.gamma_installed),
     snd (Install Sample.env_plain "curse" "gamma" "default" true
            Sample.alpha_only))
  /\ fst (get "curse" "gamma"
            (snd (Install Sample.env_plain "curse" "gamma" "default" true
                    Sample.alpha_only)))
     = Returned (Some Sample.gamma_installed)
  /\ fst (Install Sample.env_plain "curse" "3" "default" false
            (snd (Install Sample.env_plain "curse" "3" "default" true
                    Sample.alpha_only)))
     = Raised (EManagerError PkgAlreadyInstalled).
Proof.
  assert (Install Sample.env_plain "curse" "gamma" "default" true Sample.alpha_only
          = (Returned (PkgInstalled Sample.gamma_installed),
             snd (Install Sample.env_plain "curse" "gamma" "default" true
                    Sample.alpha_only))) as H1
    by (vm_compute; reflexivity).
  assert (Install Sample.env_plain "curse" "3" "default" true Sample.alpha_only
          = (Returned (PkgInstalled Sample.gamma_installed),
             snd (Install Sample.env_plain "curse" "3" "default" true
                    Sample.alpha_only))) as H2
    by (vm_compute; reflexivity).
  split; [exact H1|].
  destruct (install_then_lookup _ _ _ _ _ _ _ _ H1) as (p & Hp & _ & _ & _ & Hl).
  destruct (install_then_lookup _ _ _ _ _ _ _ _ H2) as (q & Hq & _ & _ & _ & Hl').
  inversion Hp; subst p. inversion Hq; subst q.
  destruct (Hl eq_refl (or_intror eq_refl)) as [-> _].
  destruct (Hl' eq_refl (or_introl eq_refl)) as [_ ->].
  split; reflexivity.
Defined.

Lemma remove_returned o x w r w' :
  remove o x w = (Returned r, w') ->
  exists p w1,
    get o x w = (Returned (Some p), w)
    /\ trash (map path (folders p)) w = (Returned tt, w1)
    /\ r = PkgRemoved p
    /\ w' = with_db w1 {| rows := List.filter (fun q => negb (same_key q p))
                                     (flushed (db w));
                          pending := [];
                          commits := S (commits (db w)) |}.
Proof.
  unfold remove. intros H.
  apply bind_returned_inv in H as (cur & w0 & Hget & H).
  apply get_returned in Hget as [Hw0 Hcur]. subst w0.
  inversion Hcur; subst cur. clear Hcur.
  unfold get, query_first.
  destruct (List.find _ _) as [p|]; [|discriminate].
  exists p. unfold remove_found in H.
  apply bind_returned_inv in H as ([] & w1 & Ht & H).
  exists w1. split; [reflexivity|]. split; [assumption|].
  pose proof (trash_db (map path (folders p)) w) as Hdb.
  rewrite Ht in Hdb. simpl in Hdb.
  unfold bind, db_delete, db_commit, ret in H. simpl in H. inversion H.
  split; [reflexivity|]. unfold with_db. simpl.
  now rewrite flushed_delete, Hdb.
Qed.

(** X10. A completed removal cannot be looked up.  When [remove]
    returns, it returns [PkgRemoved] with the package [get] had found,
    the committed rows are the rows there were without those of that
    package's key, and every folder of the package has left the disk for
    the trash.  If no other row answered to the reference, [get] now
    returns nothing and a further removal raises [PkgNotInstalled]. *)
Theorem remove_then_lookup (o x : string) (w w' : World) (r : ManagerSuccess) :
  remove o x w = (Returned r, w') ->
  exists p,
    r = PkgRemoved p
    /\ get o x w = (Returned (Some p), w)
    /\ rows (db w')
       = List.filter (fun q => negb (same_key q p)) (flushed (db w))
    /\ pending (db w') = []
    /\ (forall f, In f (folders p) ->
          exists t, disk w !! path f = Some t
                    /\ disk w' !! path f = None /\ In (path f, t) (trashed w'))
    /\ ((forall q, In q (flushed (db w)) -> origin q = o ->
                   id q = x \/ slug q = x -> same_key q p = true) ->
        get o x w' = (Returned None, w')
        /\ remove o x w' = (Raised (EManagerError PkgNotInstalled), w')).
Proof.
  intros H. apply remove_returned in H as (p & w1 & Hget & Ht & -> & ->).
  exists p. split; [reflexivity|]. split; [assumption|].
  split; [reflexivity|]. split; [reflexivity|].
  destruct (trash_returned _ _ _ Ht) as [Hnd Hon].
  destruct (trash_moves _ w Hnd Hon) as (w1' & Ht' & _ & _ & Hmoved & _).
  rewrite Ht in Ht'. inversion Ht'; subst w1'. clear Ht'.
  split.
  - intros f Hf. destruct (Hon (path f)) as [t Et]; [now apply in_map|].
    exists t. split; [assumption|]. simpl.
    apply Hmoved; [now apply in_map|assumption].
  - intros Honly.
    assert (get o x
              (with_db w1 {| rows := List.filter (fun q => negb (same_key q p))
                                       (flushed (db w));
                             pending := [];
                             commits := S (commits (db w)) |})
            = (Returned None,
               with_db w1 {| rows := List.filter (fun q => negb (same_key q p))
                                       (flushed (db w));
                             pending := [];
                             commits := S (commits (db w)) |})) as Hnone.
    { apply get_none. unfold flushed. simpl. intros q Hq [Ho Hx].
      apply filter_In in Hq as [Hq Hk].
      rewrite (Honly q Hq Ho Hx) in Hk. discriminate. }
    split; [exact Hnone|].
    unfold remove. now rewrite (bind_returned _ _ _ _ _ Hnone).
Qed.

Lemma remove_then_lookup_witness :
  remove "curse" "beta" Sample.two_installed
  = (Returned (PkgRemoved Sample.beta),
     snd (remove "curse" "beta" Sample.two_installed))
  /\ remove "curse" "beta" (snd (remove "curse" "beta" Sample.two_installed))
     = (Raised (EManagerError PkgNotInstalled),
        snd (remove "curse" "beta" Sample.two_installed)).
Proof.
  assert (remove "curse" "beta" Sample.two_installed
          = (Returned (PkgRemoved Sample.beta),
             snd (remove "curse" "beta" Sample.two_installed))) as H
    by (vm_compute; reflexivity).
  split; [exact H|].
  destruct (remove_then_lookup _ _ _ _ _ H) as (p & Hp & _ & _ & _ & _ & Hl).
  inversion Hp; subst p. apply Hl.
  intros q [<-|[<-|[]]] _ Hx; [|reflexivity].
  destruct Hx; discriminate.
Defined.

Lemma to_update_returned env o x w k w1 :
  to_update env o x w = (Returned k, w1) ->
  w1 = w
  /\ exists cur_pkg new_pkg payload,
       get o x w = (Returned (Some cur_pkg), w)
       /\ resolve env o x (strategy (options cur_pkg)) w = (Returned new_pkg, w)
       /\ file_id cur_pkg <> file_id new_pkg
       /\ k = update env cur_pkg new_pkg payload.
Proof.
  intros H. pose proof (to_update_world env o x w) as Hw.
  rewrite H in Hw. simpl in Hw. subst w1. split; [reflexivity|].
  unfold to_update in H.
  apply bind_returned_inv in H as (cur & w2 & Hget & H).
  apply get_returned in Hget as [Hw2 Hcur]. subst w2.
  inversion Hcur; subst cur. clear Hcur.
  unfold get, query_first.
  destruct (List.find _ _) as [cur_pkg|]; [|discriminate].
  unfold to_update_found in H.
  apply bind_returned_inv in H as (new_pkg & w2 & Hres & H).
  pose proof (resolve_world env o x (strategy (options cur_pkg)) w) as Hw2.
  rewrite Hres in Hw2. simpl in Hw2. subst w2.
  destruct (bool_decide_reflect (file_id cur_pkg = file_id new_pkg)) as [|Hne];
    [discriminate|].
  apply bind_returned_inv in H as (payload & w3 & _ & H).
  inversion H. exists cur_pkg, new_pkg, payload. tauto.
Qed.

Lemma update_returned env cur_pkg new_pkg0 payload w r w' :
  update env cur_pkg new_pkg0 payload w = (Returned r, w') ->
  exists ms w1,
    payload = ZipBytes ms
    /\ trash (map path (folders cur_pkg)) w = (Returned tt, w1)
    /\ r = PkgUpdated cur_pkg
             (set_folders new_pkg0
                (archive_folders env
                   {| archive := ms; root_folders := remove_dups (map root ms) |}))
    /\ disk w' = fold_left (write_member (addon_dir env)) ms (disk w1)
    /\ trashed w' = trashed w1
    /\ rows (db w')
       = List.filter (fun q => negb (same_key q cur_pkg)) (flushed (db w))
         ++ [set_folders new_pkg0
               (archive_folders env
                  {| archive := ms; root_folders := remove_dups (map root ms) |})]
    /\ pending (db w') = [].
Proof.
  unfold update. intros H.
  apply bind_returned_inv in H as (a & w0 & Ha & H).
  destruct payload as [|ms]; [discriminate|]. simpl in Ha.
  inversion Ha. subst a w0. clear Ha.
  apply bind_returned_inv in H as (c & w0 & Hc & H).
  inversion Hc. subst c w0. clear Hc.
  destruct (query_first _ _); [discriminate|].
  apply bind_returned_inv in H as ([] & w4 & Htf & H).
  unfold ret in H. inversion H. subst r w4. clear H.
  unfold try_finally in Htf.
  match type of Htf with context [ bind ?m ?k w ] =>
    destruct (bind m k w) as [[[]|e] w3] eqn:Eb end; [|discriminate].
  inversion Htf. clear Htf.
  apply bind_returned_inv in Eb as ([] & w1 & Ht & Eb).
  apply bind_returned_inv in Eb as ([] & w2 & Hd & Eb).
  apply bind_returned_inv in Eb as ([] & w2' & Hx & Eb).
  unfold db_delete in Hd. inversion Hd. subst w2. clear Hd.
  apply extract_returned in Hx. subst w2'.
  unfold db_add in Eb. inversion Eb. subst w3. clear Eb.
  pose proof (trash_db (map path (folders cur_pkg)) w) as Hdb.
  rewrite Ht in Hdb. simpl in Hdb.
  exists ms, w1. split; [reflexivity|]. split; [assumption|].
  split; [reflexivity|]. simpl.
  split; [reflexivity|]. split; [reflexivity|]. split; [|reflexivity].
  unfold flushed. simpl. rewrite !fold_left_app. simpl. now rewrite Hdb.
Qed.

(** X11. What a completed update has done.  When [Update] returns, it
    returns [PkgUpdated] with the package [get] had found and a new
    package whose [file_id] differs from the old one's.  The new package
    is the last committed row and the rows of the old package's key are
    gone; every folder of the old package was on disk and is in the
    trash with the contents it had; every folder of the new package is
    on disk. *)
Theorem update_completed (env : Env) (o x : string) (w w' : World)
    (r : ManagerSuccess) :
  Update env o x w = (Returned r, w') ->
  exists old_pkg new_pkg,
    r = PkgUpdated old_pkg new_pkg
    /\ get o x w = (Returned (Some old_pkg), w)
    /\ file_id old_pkg <> file_id new_pkg
    /\ rows (db w')
       = List.filter (fun q => negb (same_key q old_pkg)) (flushed (db w))
         ++ [new_pkg]
    /\ pending (db w') = []
    /\ (forall f, In f (folders old_pkg) ->
          exists t, disk w !! path f = Some t /\ In (path f, t) (trashed w'))
    /\ (forall f, In f (folders new_pkg) -> is_Some (disk w' !! path f)).
Proof.
  unfold Update, run_deferred. intros H.
  apply bind_returned_inv in H as (k & w0 & Hto & Hk).
  apply to_update_returned in Hto
    as (-> & cur_pkg & new_pkg0 & payload & Hget & Hres & Hne & ->).
  apply update_returned in Hk
    as (ms & w1 & -> & Ht & -> & Hdisk & Htrash & Hrows & Hpend).
  eexists _, _. split; [reflexivity|]. split; [assumption|].
  assert (file_id (set_folders new_pkg0
                     (archive_folders env
                        {| archive := ms;
                           root_folders := remove_dups (map root ms) |}))
          = file_id new_pkg0) as Hfid by reflexivity.
  split; [now rewrite Hfid|]. split; [assumption|]. split; [assumption|].
  destruct (trash_returned _ _ _ Ht) as [Hnd Hon].
  destruct (trash_moves _ w Hnd Hon) as (w1' & Ht' & _ & _ & Hmoved & _).
  rewrite Ht in Ht'. inversion Ht'; subst w1'. clear Ht'.
  split.
  - intros f Hf. destruct (Hon (path f)) as [t Et]; [now apply in_map|].
    exists t. split; [assumption|]. rewrite Htrash.
    apply Hmoved; [now apply in_map|assumption].
  - intros f Hf. simpl in Hf.
    assert (path f ∈ map path (archive_folders env
                                 {| archive := ms;
                                    root_folders := remove_dups (map root ms) |}))
      as Hp by (apply list_elem_of_In; now apply in_map).
    apply archive_paths in Hp as (m & Hm & Hp). rewrite Hp, Hdisk.
    destruct (fold_write_member_written (addon_dir env) ms (disk w1) m Hm)
      as (t & Ht2 & _).
    exists t. exact Ht2.
Qed.

Lemma update_completed_witness :
  Update Sample.env_plain "curse" "alpha" Sample.alpha_only
  = (Returned (PkgUpdated Sample.alpha
                 (Sample.mk_pkg "curse" "1" "alpha" "101" "1.0"
                    "https://curse/alpha-101.zip" ["Alpha"])),
     snd (Update Sample.env_plain "curse" "alpha" Sample.alpha_only))
  /\ rows (db (snd (Update Sample.env_plain "curse" "alpha" Sample.alpha_only)))
     = [Sample.mk_pkg "curse" "1" "alpha" "101" "1.0"
          "https://curse/alpha-101.zip" ["Alpha"]]
  /\ In (joinpath Sample.addons "Alpha", Sample.tree "Alpha.toc")
       (trashed (snd (Update Sample.env_plain "curse" "alpha" Sample.alpha_only))).
Proof.
  assert (Update Sample.env_plain "curse" "alpha" Sample.alpha_only
          = (Returned (PkgUpdated Sample.alpha
                         (Sample.mk_pkg "curse" "1" "alpha" "101" "1.0"
                            "https://curse/alpha-101.zip" ["Alpha"])),
             snd (Update Sample.env_plain "curse" "alpha" Sample.alpha_only)))
    as H by (vm_compute; reflexivity).
  split; [exact H|].
  destruct (update_completed _ _ _ _ _ _ H)
    as (old_pkg & new_pkg & Hr & _ & _ & Hrows & _ & Hold & _).
  inversion Hr; subst old_pkg new_pkg. split.
  - rewrite Hrows. reflexivity.
  - destruct (Hold {| path := joinpath Sample.addons "Alpha" |}) as (t & Et & Hin).
    + simpl. tauto.
    + assert (t = Sample.tree "Alpha.toc") as <-; [|exact Hin].
      vm_compute in Et. now inversion Et.
Defined.

(** ** Batches *)






Lemma resolve_outcome (env : Env) (o x st : string) (w1 w2 : World) :
  fst (resolve env o x st w1) = fst (resolve env o x st w2).
Proof.
  unfold resolve, bind, MemberDict_get.
  destruct (List.find _ (resolvers env)) as [kv|]; reflexivity.
Qed.

(** X13. [resolve_many] returns, for every completion order, one entry
    per value, in the order of the values: the package the resolver
    returned, the [ManagerError] it raised as it is, or an
    [InternalError] around whatever else it raised.  The list does not
    depend on the order in which the resolvers answered. *)
Theorem resolve_many_in_order (env : Env)
    (values : list (string * string * string)) (schedule : list nat)
    (w : World) :
  Permutation schedule (seq 0 (length values)) ->
  exists w',
    resolve_many env values schedule w
    = (Returned
         (map (fun a => result (future_of
                 (fst (resolve env (fst (fst a)) (snd (fst a)) (snd a) w))))
            values),
       w').
Proof.
  intros Hperm.
  set (coros := map (fun a => resolve env (fst (fst a)) (snd (fst a)) (snd a))
                  values).
  destruct (gather_runs coros schedule w)
    as (done & r & w' & _ & _ & Hdone & _ & Hpr & Hkeys & Hg).
  { unfold coros. now rewrite length_map. }
  exists w'. unfold resolve_many. fold coros.
  rewrite (bind_returned _ _ _ _ _ Hg). unfold ret. do 2 f_equal.
  unfold coros in Hkeys. rewrite length_map in Hkeys.
  apply (list_eq_same_length _ _ (length values)).
  - now rewrite length_map.
  - now rewrite !length_map, <- (length_map fst r), Hkeys, length_seq.
  - intros i v1 v2 Hi H1 H2.
    rewrite list_lookup_fmap in H2.
    destruct (values !! i) as [a|] eqn:Ea; [|discriminate].
    simpl in H2. inversion H2; subst v2. clear H2.
    rewrite !list_lookup_fmap in H1.
    destruct (r !! i) as [[k f]|] eqn:Er; [|discriminate].
    simpl in H1. inversion H1; subst v1. clear H1.
    assert (k = i) as ->.
    { assert (seq 0 (length values) !! i = Some k) as Hk
        by (rewrite <- Hkeys, list_lookup_fmap, Er; reflexivity).
      now apply lookup_seq in Hk as [-> _]. }
    destruct (Hdone i f) as (c & wi & Hc & ->).
    { eapply Permutation_in; [symmetry; exact Hpr|].
      apply list_elem_of_In, list_elem_of_lookup. eauto. }
    unfold coros in Hc. rewrite list_lookup_fmap, Ea in Hc. simpl in Hc.
    inversion Hc; subst c.
    now rewrite (resolve_outcome env _ _ _ wi w).
Qed.

Lemma resolve_many_in_order_witness :
  exists w',
    resolve_many Sample.env_plain
      [("curse", "gamma", "default"); ("wowi", "gamma", "default");
       ("curse", "zeta", "default")]
      [2; 0; 1] Sample.alpha_only
    = (Returned [inr Sample.gamma;
                 inl (EManagerError PkgOriginInvalid);
                 inl (EManagerError PkgNonexistent)], w').
Proof.
  exact (resolve_many_in_order Sample.env_plain
           [("curse", "gamma", "default"); ("wowi", "gamma", "default");
            ("curse", "zeta", "default")]
           [2; 0; 1] Sample.alpha_only perm_201).
Defined.

(** ** Progress bar slots *)

Lemma index_False_Some (positions : list bool) : forall b,
  index_False positions = Some b <->
  positions !! b = Some false /\ forall j, j < b -> positions !! j = Some true.
Proof.
  induction positions as [|taken later IH]; intros b; simpl.
  - split; [discriminate|]. intros [H _]. discriminate.
  - destruct taken.
    + destruct (index_False later) as [b'|] eqn:E; simpl.
      * split.
        -- intros H. inversion H; subst b. clear H.
           destruct (proj1 (IH b') eq_refl) as [Hb Hj]. split; [exact Hb|].
           intros [|j] Hlt; [reflexivity|]. simpl. apply Hj. lia.
        -- intros [Hb Hj]. destruct b as [|b]; [discriminate|]. simpl in Hb.
           assert (Some b' = Some b) as Heq.
           { apply (proj2 (IH b)). split; [exact Hb|].
             intros j Hlt. apply (Hj (S j)). lia. }
           now inversion Heq.
      * split; [discriminate|]. intros [Hb Hj].
        destruct b as [|b]; [discriminate|]. simpl in Hb.
        assert (None = Some b) as Habs; [|discriminate].
        apply (proj2 (IH b)). split; [exact Hb|].
        intros j Hlt. apply (Hj (S j)). lia.
    + split.
      * intros H. inversion H; subst b. split; [reflexivity|]. intros j Hlt. lia.
      * intros [Hb Hj]. destruct b as [|b]; [reflexivity|].
        specialize (Hj 0 ltac:(lia)). discriminate.
Qed.

Lemma index_False_None (positions : list bool) :
  index_False positions = None ->
  forall j, j < length positions -> positions !! j = Some true.
Proof.
  induction positions as [|taken later IH]; simpl; intros H j Hj; [lia|].
  destruct taken; [|discriminate].
  destruct (index_False later); [discriminate|].
  destruct j as [|j]; [reflexivity|]. simpl. apply IH; [reflexivity|lia].
Qed.

Lemma bar_position_first_free_aux (bar_positions : list bool) :
  (forall j, j < fst (bar_position bar_positions) ->
             bar_positions !! j = Some true)
  /\ bar_positions !! fst (bar_position bar_positions) <> Some true
  /\ snd (bar_position bar_positions) !! fst (bar_position bar_positions)
     = Some true
  /\ (forall j, j <> fst (bar_position bar_positions) ->
        snd (bar_position bar_positions) !! j = bar_positions !! j)
  /\ length (snd (bar_position bar_positions))
     = (if bool_decide (fst (bar_position bar_positions) < length bar_positions)
        then length bar_positions else S (length bar_positions)).
Proof.
  unfold bar_position.
  destruct (index_False bar_positions) as [b|] eqn:E; simpl.
  - apply index_False_Some in E as [Hb Hj].
    assert (b < length bar_positions) as Hlt by (eapply lookup_lt_Some; eauto).
    repeat split.
    + exact Hj.
    + rewrite Hb. discriminate.
    + now apply list_lookup_insert_eq.
    + intros j Hne. now apply list_lookup_insert_ne.
    + rewrite length_insert. now rewrite bool_decide_eq_true_2.
  - repeat split.
    + now apply index_False_None.
    + now rewrite lookup_ge_None_2.
    + rewrite lookup_app_r by lia. now rewrite Nat.sub_diag.
    + intros j Hne. destruct (Nat.lt_ge_cases j (length bar_positions)).
      * now rewrite lookup_app_l.
      * rewrite !lookup_ge_None_2; [reflexivity|lia|].
        rewrite length_app. simpl. lia.
    + rewrite length_app. simpl. rewrite bool_decide_eq_false_2 by lia. lia.
Qed.

(** X14. [bar_position] hands out the first free slot: every slot
    before it is taken and it was not; afterwards it is taken and every
    other slot is as it was, and the list of slots has grown, by one,
    only when no slot was free.  Slots are reused and never shared: a
    second [bar_position] right after a first never returns the same
    slot; giving a slot back with the callback always succeeds, and the
    next [bar_position] hands out that very slot again; when the slot
    was a free slot of the list, giving it back restores the list as it
    was. *)
Theorem bar_position_first_free (bar_positions : list bool) :
  let b := fst (bar_position bar_positions) in
  let after := snd (bar_position bar_positions) in
  ((forall j, j < b -> bar_positions !! j = Some true)
   /\ bar_positions !! b <> Some true
   /\ after !! b = Some true
   /\ (forall j, j <> b -> after !! j = bar_positions !! j)
   /\ length after
      = (if bool_decide (b < length bar_positions)
         then length bar_positions else S (length bar_positions)))
  /\ fst (bar_position after) <> b
  /\ exists released,
       reset_position b after = Some released
       /\ fst (bar_position released) = b
       /\ (b < length bar_positions -> released = bar_positions).
Proof.
  pose proof (bar_position_first_free_aux bar_positions) as Haux.
  destruct (bar_position_first_free_aux bar_positions)
    as (Hbefore & Hfree & Htaken & Hother & Hlen).
  cbv zeta. split; [exact Haux|]. split.
  - unfold bar_position at 1.
    destruct (index_False (snd (bar_position bar_positions))) as [b'|] eqn:E;
      simpl.
    + apply index_False_Some in E as [Hb' _]. intros ->. congruence.
    + intros Heq. apply lookup_lt_Some in Htaken. lia.
  - assert (fst (bar_position bar_positions)
            < length (snd (bar_position bar_positions))) as Hlt
      by (eapply lookup_lt_Some; eauto).
    unfold reset_position. rewrite (proj2 (Nat.ltb_lt _ _) Hlt).
    eexists. split; [reflexivity|]. split.
    + unfold bar_position at 1.
      rewrite (proj2 (index_False_Some _ (fst (bar_position bar_positions)))).
      * reflexivity.
      * split; [now apply list_lookup_insert_eq|].
        intros j Hj. rewrite list_lookup_insert_ne by lia.
        rewrite Hother by lia. now apply Hbefore.
    + intros Hin. apply list_eq. intros j.
      destruct (decide (j = fst (bar_position bar_positions))) as [->|Hne].
      * rewrite list_lookup_insert_eq by assumption.
        destruct (lookup_lt_is_Some_2 _ _ Hin) as [[] Hx]; [|now rewrite Hx].
        now destruct Hfree.
      * rewrite list_lookup_insert_ne by congruence. now apply Hother.
Qed.

(** ** One response per request *)

Lemma respond_id (request : Request) (awaitable : M Prepared) (w : World) :
  response_id (fst (respond request awaitable w)) = Some (request_id request).
Proof.
  unfold respond. destruct (awaitable w) as [[v|e] w']; [reflexivity|].
  now destruct e.
Qed.

Lemma receive_inbox (m : Message) (s : Proto) : inbox (receive m s) = inbox s.
Proof.
  destruct m as [r| |]; simpl; [|reflexivity|reflexivity].
  now destruct (is_mutating r).
Qed.

Section Owed.

Local Abbreviation occurrences :=
  (count_occ (fun x y : option nat => decide (x = y))).

(** Responses sent and responses owed, counted by id, against the
    messages received so far. *)
Local Abbreviation balanced s consumed :=
  (forall i : option nat,
      occurrences (map response_id (sent s)) i + occurrences (owed_ids s) i
      = occurrences (flat_map message_ids consumed) i).

Lemma receive_balanced (m : Message) (s : Proto) (consumed : list Message) :
  balanced s consumed -> balanced (receive m s) (consumed ++ [m]).
Proof.
  intros H i. specialize (H i). rewrite flat_map_app, count_occ_app. simpl.
  rewrite app_nil_r. unfold owed_ids in *.
  destruct m as [r|e|]; simpl.
  - destruct (is_mutating r); simpl;
      rewrite ?flat_map_app, ?map_app, ?count_occ_app in *; simpl in *;
      rewrite ?count_occ_app in *; simpl; lia.
  - rewrite ?flat_map_app, ?count_occ_app in *. simpl.
    rewrite ?count_occ_app in *. simpl. lia.
  - lia.
Qed.

Lemma delete_task_ids (ts : list Task) (n : nat) (t : Task) (i : option nat) :
  ts !! n = Some t ->
  occurrences (flat_map task_ids ts) i
  = occurrences (task_ids t) i + occurrences (flat_map task_ids (delete n ts)) i.
Proof.
  intros Ht. rewrite <- count_occ_app.
  apply Permutation_count_occ.
  change (task_ids t ++ flat_map task_ids (delete n ts))
    with (flat_map task_ids (t :: delete n ts)).
  apply Permutation_flat_map. now apply delete_Permutation.
Qed.

Lemma step_balanced (env : Env) (c : Choice) (s s' : Proto)
    (messages : list Message) :
  (exists consumed, messages = consumed ++ inbox s /\ balanced s consumed) ->
  step env c s = Some s' ->
  exists consumed, messages = consumed ++ inbox s' /\ balanced s' consumed.
Proof.
  intros (consumed & Hm & H) Hstep. destruct c as [|n|]; simpl in Hstep.
  - destruct (inbox s) as [|m later] eqn:Ei; [discriminate|].
    inversion Hstep; subst s'. clear Hstep.
    exists (consumed ++ [m]). split.
    + rewrite receive_inbox. simpl. now rewrite <- app_assoc.
    + now apply receive_balanced.
  - destruct (tasks s !! n) as [t|] eqn:Et; [|discriminate].
    inversion Hstep; subst s'. clear Hstep.
    exists consumed. split.
    + destruct t as [r f|r|e]; simpl; try assumption.
      * now destruct (prepare_response env r (world s)).
      * now destruct (respond r (prepare_response env r) (world s)).
    + intros i. specialize (H i). unfold owed_ids in *.
      rewrite count_occ_app in H. rewrite (delete_task_ids _ _ _ i Et) in H.
      destruct t as [r f|r|e]; simpl in *.
      * destruct (prepare_response env r (world s)). simpl.
        rewrite count_occ_app. lia.
      * pose proof (respond_id r (prepare_response env r) (world s)) as Hid.
        destruct (respond r (prepare_response env r) (world s)) as [resp w'].
        simpl in *. rewrite map_app, !count_occ_app. simpl. rewrite Hid.
        destruct (decide (Some (request_id r) = i)); lia.
      * rewrite map_app, !count_occ_app. simpl.
        destruct (decide (None = i)); lia.
  - destruct (consumer_queue s) as [|[r f] queue'] eqn:Eq; [discriminate|].
    destruct (futures s !! f) as [[done|]|]; try discriminate.
    inversion Hstep; subst s'. clear Hstep.
    exists consumed. unfold consumer_iteration.
    pose proof (respond_id r (consume r done) (world s)) as Hid.
    destruct (respond r (consume r done) (world s)) as [resp w'].
    split; [assumption|].
    intros i. specialize (H i). unfold owed_ids in *. rewrite Eq in H.
    simpl in *. rewrite map_app, !count_occ_app in *. simpl in *. rewrite Hid.
    destruct (decide (Some (request_id r) = i)); lia.
Qed.

Lemma run_balanced (env : Env) (cs : list Choice) (messages : list Message) :
  forall s s',
    (exists consumed, messages = consumed ++ inbox s /\ balanced s consumed) ->
    run env cs s = Some s' ->
    exists consumed, messages = consumed ++ inbox s' /\ balanced s' consumed.
Proof.
  induction cs as [|c cs IH]; intros s s' Hs Hrun; simpl in Hrun.
  - now inversion Hrun; subst.
  - destruct (step env c s) as [s1|] eqn:E; [|discriminate].
    eapply IH; [|exact Hrun]. eapply step_balanced; eauto.
Qed.

(** X16. The loop answers every request once and invents no answer.
    At every point of every run, the ids on the responses sent, together
    with the ids still owed by the tasks not yet run and by the queue of
    the consumer, are the ids of the text messages received so far, each
    as often as it was received (a message that does not parse is owed
    an answer without id).  So when no message is left, no task is
    waiting and the queue is empty, the responses sent carry exactly the
    ids of the messages, in some order. *)
Theorem every_request_answered_once (env : Env) (messages : list Message)
    (w : World) (cs : list Choice) (s : Proto) :
  run env cs (poll messages w) = Some s ->
  (exists consumed,
      messages = consumed ++ inbox s
      /\ Permutation (map response_id (sent s) ++ owed_ids s)
           (flat_map message_ids consumed))
  /\ (inbox s = [] -> owed_ids s = [] ->
      Permutation (map response_id (sent s)) (flat_map message_ids messages)).
Proof.
  intros Hrun.
  destruct (run_balanced env cs messages (poll messages w) s) as (consumed & Hm & H).
  { exists []. split; [reflexivity|]. intros i. reflexivity. }
  { exact Hrun. }
  assert (Permutation (map response_id (sent s) ++ owed_ids s)
            (flat_map message_ids consumed)) as Hperm.
  { apply (Permutation_count_occ (fun x y : option nat => decide (x = y))).
    intros i. rewrite count_occ_app. apply H. }
  split; [eauto|].
  intros Hin Hown. rewrite Hin, app_nil_r in Hm. subst consumed.
  now rewrite Hown, app_nil_r in Hperm.
Qed.

End Owed.

Lemma every_request_answered_once_witness :
  exists s,
    run Sample.env_plain
      [Receive; Receive; RunTask 1; RunTask 0; Consume; Consume]
      (poll [TextRequest Sample.install_gamma; TextRequest Sample.remove_beta]
         Sample.beta_only) = Some s
    /\ Permutation (map response_id (sent s)) [Some 1; Some 2].
Proof.
  destruct (run Sample.env_plain
              [Receive; Receive; RunTask 1; RunTask 0; Consume; Consume]
              (poll [TextRequest Sample.install_gamma;
                     TextRequest Sample.remove_beta] Sample.beta_only))
    as [s|] eqn:E.
  - exists s. split; [reflexivity|].
    destruct (every_request_answered_once _ _ _ _ _ E) as [_ H].
    apply H.
    + assert (inbox <$> Some s = Some []) as Hi
        by (rewrite <- E; vm_compute; reflexivity).
      now inversion Hi.
    + assert (owed_ids <$> Some s = Some []) as Ho
        by (rewrite <- E; vm_compute; reflexivity).
      now inversion Ho.
  - exfalso. vm_compute in E. discriminate.
Defined.

Lemma deferred_actions_follow_arrival_order_witness :
  exists s,
    run Sample.env_plain
      [Receive; Receive; RunTask 1; RunTask 0; Consume; Consume]
      (poll [TextRequest Sample.install_gamma; TextRequest Sample.remove_beta]
         Sample.beta_only) = Some s
    /\ (exists waiting,
          received_mutating (trace s) = answered_mutating (trace s) ++ waiting)
    /\ deferred_in_order (trace s).
Proof.
  destruct (run Sample.env_plain
              [Receive; Receive; RunTask 1; RunTask 0; Consume; Consume]
              (poll [TextRequest Sample.install_gamma;
                     TextRequest Sample.remove_beta] Sample.beta_only))
    as [s|] eqn:E.
  - exists s. split; [reflexivity|].
    exact (deferred_actions_follow_arrival_order _ _ _ _ _ E).
  - exfalso. vm_compute in E. discriminate.
Defined.

(** ** The report *)

Lemma is_error_marker (r : ManagerResult) :
  is_error r = true <-> _adorn_result r <> _success.
Proof. destruct r; simpl; split; congruence. Qed.

(** X17. The exit status agrees with what the report shows: [code] is
    truthy exactly when the report has an entry marked as a failure or
    as a warning.  An entry is shown exactly for the results the filter
    lets through, in their order, so a result the filter hides neither
    shows nor counts. *)
Theorem report_code_matches_entries {Key : Type} (report : @Report Key) :
  (code report = true <->
   exists entry, In entry (report_entries report)
                 /\ fst (fst entry) <> _success)
  /\ map (fun entry => snd (fst entry)) (report_entries report)
     = map fst (List.filter (fun ar => filter_fn report (snd ar))
                  (results report))
  /\ code report
     = code {| results := List.filter (fun ar => filter_fn report (snd ar))
                            (results report);
               filter_fn := filter_fn report |}.
Proof.
  split; [|split].
  - unfold code, report_entries. rewrite existsb_exists. split.
    + intros ([a r] & Hin & Hc). simpl in Hc. apply andb_true_iff in Hc as [He Hf].
      exists (_adorn_result r, a, message r). split.
      * apply in_map_iff. exists (a, r). split; [reflexivity|].
        apply filter_In. tauto.
      * simpl. now apply is_error_marker.
    + intros (entry & Hin & Hm). apply in_map_iff in Hin as ([a r] & <- & Hin).
      apply filter_In in Hin as [Hin Hf]. simpl in *.
      exists (a, r). split; [assumption|]. simpl.
      apply andb_true_iff. split; [now apply is_error_marker|assumption].
  - unfold report_entries. rewrite map_map. reflexivity.
  - unfold code. simpl.
    induction (results report) as [|[a r] rs IH]; simpl; [reflexivity|].
    destruct (filter_fn report r) eqn:Hf; simpl.
    + now rewrite Hf, IH.
    + now rewrite andb_false_r.
Qed.

(** X18. The exit status of [update].  Called without add-ons, the
    command hides the packages that are up to date: the status is falsy
    exactly when every result is a success or [PkgUpToDate].  Called
    with add-ons, it hides nothing: the status is falsy exactly when
    every result is a success, so naming an add-on that is up to date
    makes the command exit with a failure. *)
Theorem update_exit_status {Key : Type} (results_ : list (Key * ManagerResult)) :
  (code (update_report [] results_) = false <->
   forall a r, In (a, r) results_ ->
               is_error r = false \/ r = Failure PkgUpToDate)
  /\ (forall addon addons,
        code (update_report (addon :: addons) results_) = false <->
        forall a r, In (a, r) results_ -> is_error r = false)
  /\ (forall a addon addons, In (a, Failure PkgUpToDate) results_ ->
        code (update_report (addon :: addons) results_) = true
        /\ ~ In (_failure, a, message (Failure PkgUpToDate))
               (report_entries (update_report [] results_))).
Proof.
  assert (forall (f : ManagerResult -> bool),
            code {| results := results_; filter_fn := f |} = false <->
            forall a r, In (a, r) results_ -> is_error r && f r = false) as Hcode.
  { intros f. unfold code. simpl. split.
    - intros H a r Hin. destruct (is_error r && f r) eqn:E; [|reflexivity].
      assert (existsb (fun ar : Key * ManagerResult =>
                         is_error (snd ar) && f (snd ar)) results_ = true) as Ht
        by (apply existsb_exists; exists (a, r); tauto).
      congruence.
    - intros H. apply not_true_is_false. intros Ht.
      apply existsb_exists in Ht as ([a r] & Hin & Hc).
      simpl in Hc. rewrite (H a r Hin) in Hc. discriminate. }
  split; [|split].
  - unfold update_report. rewrite Hcode. split; intros H a r Hin;
      specialize (H a r Hin).
    + destruct r as [s|e|e]; simpl in *; [tauto| |discriminate].
      destruct e; simpl in *; try discriminate. tauto.
    + destruct H as [-> | ->]; reflexivity.
  - intros addon addons. unfold update_report. rewrite Hcode.
    split; intros H a r Hin; specialize (H a r Hin); simpl in *.
    + now rewrite andb_true_r in H.
    + now rewrite H.
  - intros a addon addons Hin. split.
    + unfold update_report, code. simpl. apply existsb_exists.
      exists (a, Failure PkgUpToDate). tauto.
    + unfold report_entries. simpl. intros Hentry.
      apply in_map_iff in Hentry as ([a' r] & Heq & Hf).
      apply filter_In in Hf as [_ Hf]. simpl in *.
      destruct r as [s|e|e]; simpl in Heq; try discriminate.
      destruct e; simpl in *; discriminate.
Qed.

(** ** Add-on definitions *)

Lemma partition_colon_join (head tail : string) :
  has_colon head = false ->
  partition_colon (head +:+ String colon tail) = (head, tail).
Proof.
  induction head as [|c head IH]; intros H.
  - reflexivity.
  - simpl in *. apply orb_false_iff in H as [Hc Hh]. rewrite Hc. now rewrite IH.
Qed.

Lemma partition_colon_split (value : string) :
  has_colon value = true ->
  value = fst (partition_colon value) +:+ String colon (snd (partition_colon value))
  /\ has_colon (fst (partition_colon value)) = false.
Proof.
  induction value as [|c value IH]; simpl; [discriminate|].
  destruct (bool_decide_reflect (c = colon)) as [->|Hc]; simpl.
  - split; reflexivity.
  - intros H. destruct (IH H) as [Hv Hh]. split.
    + change (String c value
              = String c (fst (partition_colon value)
                          +:+ String colon (snd (partition_colon value)))).
      now f_equal.
    + rewrite Hh. now rewrite bool_decide_eq_false_2.
Qed.

(** X19. [parse_into_defn] on one string.  A value without a colon is
    refused with [BadParameter], or read as a name of any source when
    [raise_invalid] is off.  A value with a colon that [decompose_url]
    does not take apart is split at its first colon: joining the source,
    a colon and the name gives the value back, the source holds no
    colon, and whatever follows the first colon, further colons
    included, is the name. *)
Theorem parse_into_defn_first_colon
    (decompose_url : string -> option (string * string)) :
  (forall value raise_invalid, has_colon value = false ->
     parse_into_defn decompose_url value raise_invalid
     = if raise_invalid then Raised (EOther "BadParameter")
       else Returned {| source := "*"; defn_name := value;
                        defn_strategy := "default" |})
  /\ (forall src nm raise_invalid,
        has_colon src = false ->
        decompose_url (src +:+ String colon nm) = None ->
        parse_into_defn decompose_url (src +:+ String colon nm) raise_invalid
        = Returned {| source := src; defn_name := nm;
                      defn_strategy := "default" |})
  /\ (forall value raise_invalid,
        has_colon value = true -> decompose_url value = None ->
        exists d,
          parse_into_defn decompose_url value raise_invalid = Returned d
          /\ value = source d +:+ String colon (defn_name d)
          /\ has_colon (source d) = false).
Proof.
  split; [|split].
  - intros value raise_invalid H. unfold parse_into_defn. now rewrite H.
  - intros src nm raise_invalid Hsrc Hurl. unfold parse_into_defn.
    assert (has_colon (src +:+ String colon nm) = true) as Hc.
    { clear Hurl. induction src as [|c src IH].
      - reflexivity.
      - simpl in *. apply orb_false_iff in Hsrc as [-> Hs]. simpl. now apply IH. }
    rewrite Hc, Hurl. simpl. now rewrite partition_colon_join.
  - intros value raise_invalid Hc Hurl. unfold parse_into_defn.
    rewrite Hc, Hurl. simpl.
    eexists. split; [reflexivity|]. simpl. now apply partition_colon_split.
Qed.

(** ** The folder index stays consistent *)

Lemma folder_paths_app (l1 l2 : list Pkg) :
  folder_paths (l1 ++ l2) = folder_paths l1 ++ folder_paths l2.
Proof. unfold folder_paths, folder_rows. now rewrite flat_map_app, map_app. Qed.

Lemma folder_paths_cons (p : Pkg) (l : list Pkg) :
  folder_paths (p :: l) = map path (folders p) ++ folder_paths l.
Proof.
  unfold folder_paths, folder_rows. simpl. rewrite map_app, map_map.
  reflexivity.
Qed.

Lemma in_folder_paths (rs : list Pkg) (q : Path) :
  In q (folder_paths rs) <->
  exists p f, In p rs /\ In f (folders p) /\ path f = q.
Proof.
  unfold folder_paths. rewrite in_map_iff. split.
  - intros (r & <- & Hr). apply in_folder_rows in Hr as [Hp Hf]. eauto.
  - intros (p & f & Hp & Hf & <-).
    exists {| row_folder := f; pkg := p |}. split; [reflexivity|].
    apply in_folder_rows. simpl. tauto.
Qed.

Lemma folder_paths_filter (keep : Pkg -> bool) (rs : list Pkg) :
  NoDup (folder_paths rs) -> NoDup (folder_paths (List.filter keep rs)).
Proof.
  induction rs as [|p rs IH]; simpl; [trivial|].
  rewrite folder_paths_cons. intros Hnd.
  apply NoDup_app in Hnd as (Hp & Hdisj & Hrs).
  destruct (keep p); [|now apply IH].
  rewrite folder_paths_cons. apply NoDup_app. split; [assumption|].
  split; [|now apply IH].
  intros q Hq Hin. apply (Hdisj q Hq).
  apply list_elem_of_In, in_folder_paths in Hin as (p' & f & Hp' & Hf & <-).
  apply list_elem_of_In, in_folder_paths. exists p', f.
  apply filter_In in Hp' as [Hp' _]. tauto.
Qed.

Lemma install_returned_unowned env pkg0 payload ov w r w' :
  install env pkg0 payload ov w = (Returned r, w') ->
  exists ms,
    payload = ZipBytes ms
    /\ forall q f m, In q (flushed (db w)) -> In f (folders q) -> In m ms ->
                     path f <> joinpath (addon_dir env) (root m).
Proof.
  unfold install. intros H.
  apply bind_returned_inv in H as (a & w0 & Ha & H).
  destruct payload as [|ms]; [discriminate|]. simpl in Ha.
  inversion Ha. subst a w0. clear Ha.
  apply bind_returned_inv in H as (c & w0 & Hc & H).
  inversion Hc. subst c w0. clear Hc.
  destruct (query_first _ _) as [c|] eqn:Eq; [discriminate|].
  exists ms. split; [reflexivity|].
  intros q f m Hq Hf Hm Hp.
  pose proof (List.find_none _ _ Eq {| row_folder := f; pkg := q |}) as Hn.
  unfold install_conflict_filter in Hn. simpl in Hn.
  rewrite bool_decide_eq_true_2 in Hn.
  - assert (true = false) by (apply Hn, in_folder_rows; simpl; tauto).
    discriminate.
  - apply archive_paths. eauto.
Qed.

(** X20. Installing and removing keep the folder index consistent: if
    no folder path is recorded twice, for one package or for two, before
    an install or a removal that returns, then none is recorded twice
    after it. *)
Theorem folder_paths_stay_unique (env : Env) (w w' : World)
    (r : ManagerSuccess) :
  NoDup (folder_paths (flushed (db w))) ->
  (forall pkg0 payload ov,
      install env pkg0 payload ov w = (Returned r, w') ->
      NoDup (folder_paths (rows (db w'))))
  /\ (forall o x,
        remove o x w = (Returned r, w') ->
        NoDup (folder_paths (rows (db w')))).
Proof.
  intros Hnd. split.
  - intros pkg0 payload ov H.
    destruct (install_returned_unowned _ _ _ _ _ _ _ H) as (ms & -> & Hno).
    apply install_returned in H as (a & Ha & _ & -> & _).
    simpl in Ha. inversion Ha. subst a. clear Ha.
    rewrite folder_paths_app, folder_paths_cons. simpl. rewrite app_nil_r.
    apply NoDup_app. split; [assumption|]. split.
    + intros q Hq Hin. apply archive_paths in Hin as (m & Hm & ->).
      apply list_elem_of_In, in_folder_paths in Hq as (p & f & Hp & Hf & Hpath).
      exact (Hno p f m Hp Hf Hm Hpath).
    + unfold archive_folders. simpl. rewrite map_map. simpl.
      apply NoDup_fmap_2; [|apply NoDup_remove_dups].
      intros f1 f2. apply joinpath_inj.
  - intros o x H.
    apply remove_returned in H as (p & w1 & _ & _ & _ & ->). simpl.
    now apply folder_paths_filter.
Qed.

Lemma folder_paths_stay_unique_witness :
  NoDup (folder_paths (flushed (db Sample.alpha_only)))
  /\ NoDup (folder_paths
              (rows (db (snd (install Sample.env_plain Sample.gamma
                                (ZipBytes Sample.gamma_zip) false
                                Sample.alpha_only))))).
Proof.
  assert (NoDup (folder_paths (flushed (db Sample.alpha_only)))) as Hnd.
  { vm_compute. apply NoDup_singleton. }
  split; [exact Hnd|].
  destruct (folder_paths_stay_unique Sample.env_plain Sample.alpha_only
              (snd (install Sample.env_plain Sample.gamma
                      (ZipBytes Sample.gamma_zip) false Sample.alpha_only))
              (PkgInstalled Sample.gamma_installed) Hnd) as [H _].
  apply (H Sample.gamma (ZipBytes Sample.gamma_zip) false).
  vm_compute. reflexivity.
Defined.



(** ** What the batch logs *)

Lemma as_completed_log {A : Type} (outs : list (outcome A))
    (schedule : list nat) :
  forall w done w',
    as_completed (map lift outs) schedule w = (Returned done, w') ->
    disk w' = disk w /\ trashed w' = trashed w /\ db w' = db w
    /\ log w'
       = log w ++ flat_map (fun index => match outs !! index with
                                         | Some o => logged o
                                         | None => []
                                         end) schedule.
Proof.
  induction schedule as [|index later IH]; intros w done w' H; simpl in H.
  - inversion H; subst. simpl. now rewrite app_nil_r.
  - rewrite list_lookup_fmap in H. simpl.
    destruct (outs !! index) as [o|]; simpl in H.
    + apply bind_returned_inv in H as (f & w1 & Hi & H).
      apply bind_returned_inv in H as (others & w2 & Hrest & H).
      inversion H; subst. clear H.
      destruct (IH _ _ _ Hrest) as (Hd & Ht & Hdb & Hlog).
      unfold intercept, lift in Hi.
      destruct o as [v|e]; simpl in *.
      * inversion Hi; subst. tauto.
      * destruct (is_ManagerError e); inversion Hi; subst; simpl in *;
          [tauto|].
        rewrite Hlog, <- app_assoc. tauto.
    + simpl. exact (IH _ _ _ H).
Qed.

(** X22. A batch logs every unexpected fault once and touches nothing
    else.  For items that end in given outcomes, in whatever order they
    complete, [gather] leaves the disk, the trash and the database as
    they were, and appends to the log one "internal error" entry for
    each outcome that is an exception other than a [ManagerError], in
    the order of completion; results and [ManagerError]s are not
    logged. *)
Theorem gather_logs_faults_once {A : Type} (outs : list (outcome A))
    (schedule : list nat) (w : World) :
  Permutation schedule (seq 0 (length outs)) ->
  exists futures w',
    gather (map lift outs) schedule w = (Returned futures, w')
    /\ disk w' = disk w /\ trashed w' = trashed w /\ db w' = db w
    /\ log w'
       = log w ++ flat_map (fun index => match outs !! index with
                                         | Some o => logged o
                                         | None => []
                                         end) schedule
    /\ Permutation (log w') (log w ++ flat_map logged outs).
Proof.
  intros Hperm.
  destruct (gather_runs (map lift outs) schedule w)
    as (done & r & w' & Ed & _ & _ & _ & _ & _ & Hg).
  { now rewrite length_map. }
  destruct (as_completed_log outs schedule w done w' Ed) as (Hd & Ht & Hdb & Hlog).
  exists (map snd r), w'. repeat split; try assumption.
  rewrite Hlog. apply Permutation_app_head.
  rewrite (Permutation_flat_map _ Hperm).
  clear. assert (forall start,
    flat_map (fun index => match outs !! index with
                           | Some o => logged o
                           | None => []
                           end) (seq start (length outs - start))
    = flat_map logged (drop start outs)) as Hseq.
  { intros start. remember (length outs - start) as n eqn:En.
    revert start En. induction n as [|n IH]; intros start En; simpl.
    - rewrite drop_ge by lia. reflexivity.
    - destruct (lookup_lt_is_Some_2 outs start ltac:(lia)) as [o Eo].
      rewrite Eo. rewrite (drop_S _ _ _ Eo). simpl.
      f_equal. apply IH. lia. }
  specialize (Hseq 0). rewrite Nat.sub_0_r in Hseq. now rewrite Hseq.
Qed.

Lemma gather_logs_faults_once_witness :
  exists futures w',
    gather (map lift [Returned 7; Raised (EOther "ClientError");
                      Raised (EManagerError PkgNonexistent)])
      [2; 0; 1] Sample.alpha_only = (Returned futures, w')
    /\ log w' = [("internal error", EOther "ClientError")].
Proof.
  destruct (gather_logs_faults_once
              [Returned 7; Raised (EOther "ClientError");
               Raised (EManagerError PkgNonexistent)]
              [2; 0; 1] Sample.alpha_only perm_201)
    as (futures & w' & Hg & _ & _ & _ & Hlog & _).
  exists futures, w'. split; [exact Hg|]. rewrite Hlog. reflexivity.
Defined.
